(** * The batch classification orchestrator of AnimalClassifierApp.jsx

    A shallow embedding of the stateful core of
    [src/frontend/src/components/AnimalClassifierApp.jsx]: the item store
    ([images]), the classification client ([analyzeImage]), the per-item and
    batch handlers ([handleAnalyzeImage], [handleAnalyzeAll]), ingestion
    ([handleFiles]), removal, reset and the statistics ([getOverallStats]).

    React state is a record; [setImages (prev => ...)] is a function applied
    to the current store.  An [async] handler is cut at its [await]: the part
    before it runs when the handler is invoked, the part after it runs when
    the awaited promise settles.  What a handler closes over (the [images] of
    the render in which it was created) is an explicit argument.

    JavaScript numbers are binary64 floats ([PrimFloat]); the strings that
    [toFixed] yields are kept as structured numerals. *)

From Stdlib Require Import ZArith List String Lia DecimalString.
From Stdlib Require Import Floats.PrimFloat Floats.FloatOps Floats.SpecFloat Uint63.
From stdpp Require Import base gmap strings list.
Import ListNotations.

Set Warnings "-inexact-float".

Local Open Scope Z_scope.

(** ** JavaScript numbers and [Number.prototype.toFixed] *)

Module Js.

(** The string a number is printed as.  [Fixed neg n f] is the decimal
    numeral of [n] with a point before its last [f] digits (padded with
    zeros on the left to [f + 1] digits) and ["-"] in front when [neg];
    [NumberToString x] is [Number::toString(x)], which [toFixed] returns
    for a number that is not finite or is at least 10^21 in magnitude. *)
Inductive NumString : Type :=
| Fixed (neg : bool) (n : Z) (f : Z)
| NumberToString (x : float).

(** Is [m * 2^e >= c] ? *)
Definition scaled_geb (m e c : Z) : bool :=
  if 0 <=? e then c <=? m * 2 ^ e else c * 2 ^ (- e) <=? m.

(** The integer [n] for which [n - m * 2^e] is as close to zero as
    possible, the larger one when there are two. *)
Definition nearest_integer (m e : Z) : Z :=
  if 0 <=? e then m * 2 ^ e
  else (2 * m + 2 ^ (- e)) / 2 ^ (- e + 1).

(** [x.toFixed(f)] (ECMA-262, Number.prototype.toFixed), for [0 <= f]. *)
Definition toFixed (x : float) (f : Z) : NumString :=
  match Prim2SF x with
  | S754_zero _ => Fixed false 0 f
  | S754_finite s m e =>
      if scaled_geb (Z.pos m) e (10 ^ 21) then NumberToString x
      else Fixed s (nearest_integer (Z.pos m * 10 ^ f) e) f
  | S754_infinity _ | S754_nan => NumberToString x
  end.

(** [parseFloat(s)] on such a string: the binary64 nearest to the decimal
    value (round to nearest, ties to even); [Number::toString] round-trips. *)
Definition parseFloat (s : NumString) : float :=
  match s with
  | Fixed neg n f =>
      match n with
      | Z.pos p =>
          SF2Prim (SFdiv prec emax (S754_finite neg p 0)
                                   (S754_finite false (Z.to_pos (10 ^ f)) 0))
      | _ => SF2Prim (S754_zero neg)
      end
  | NumberToString x => x
  end.

(** A thrown value; [message] is [""] when the value has no message. *)
Record Error : Type := mkError { message : string }.

(** [a || b] on strings: the empty string is falsy. *)
Definition str_or (a b : string) : string :=
  if String.eqb a "" then b else a.

(** Template-literal rendering of an integer. *)
Definition string_of_Z (z : Z) : string := NilZero.string_of_int (Z.to_int z).

End Js.

(** ** The data model *)

(** A browser [File]: an opaque payload, told apart by name here. *)
Inductive File : Type := mkFile (name : string).

(** One entry of the backend's [top_5_predictions]. *)
Record Prediction : Type := mkPrediction {
  pred_breed : string;
  pred_confidence : float
}.

Record DetectionStage : Type := mkStage {
  stage : string;
  progress : Z;
  time : float;
  description : string
}.

Record Calculations : Type := mkCalculations {
  inputResolution : string;
  processingTime : Js.NumString;      (* followed by "s" *)
  modelArchitecture : string;
  totalClasses : string
}.

(** The object [analyzeImage] returns. *)
Module Result.
Record t : Type := mk {
  id : Z;
  breed : string;
  confidence : Js.NumString;        (* data.confidence.toFixed(1) *)
  top5 : list Prediction;
  detectionStages : list DetectionStage;
  calculations : Calculations
}.
End Result.

(** An element of the [images] state array. *)
Module Image.
Record t : Type := mk {
  id : Z;
  file : File;
  preview : option string;
  analyzing : bool;
  result : option Result.t;
  currentStage : Z;
  error : option string
}.

(** [!!img.result] *)
Definition has_result (img : t) : bool :=
  match result img with Some _ => true | None => false end.

(** [!!img.error]: a string is truthy unless it is empty. *)
Definition has_error (img : t) : bool :=
  match error img with Some s => negb (String.eqb s "") | None => false end.
End Image.

(** The JSON body of a successful [/predict] response. *)
Record PredictData : Type := mkPredictData {
  predicted_breed : string;
  data_confidence : float;
  top_5_predictions : list Prediction
}.

(** How the [fetch] of [analyzeImage] ends: the promise rejects, or a
    response arrives with its [ok] flag, status, body text and the outcome
    of [response.json()] (a thrown error covers every malformed body). *)
Inductive FetchOutcome : Type :=
| FetchRejects (err : Js.Error)
| FetchResponds (ok : bool) (status : Z) (text : string)
                (json : PredictData + Js.Error).

(** ** The classification client: [analyzeImage] after its [fetch] settles

    [elapsed_ms] is [performance.now() - startTime]. *)
Definition analyzeImage (imageId : Z) (out : FetchOutcome) (elapsed_ms : float)
  : Result.t + Js.Error :=
  match out with
  | FetchRejects err => inr err
  | FetchResponds ok status errorText json =>
      if negb ok then
        inr (Js.mkError
               (Js.str_or errorText ("Server error: " ++ Js.string_of_Z status)))
      else
        match json with
        | inr err => inr err
        | inl data =>
            let elapsed := Js.toFixed (elapsed_ms / 1000)%float 2 in
            inl (Result.mk imageId
                   (predicted_breed data)
                   (Js.toFixed (data_confidence data) 1)
                   (top_5_predictions data)
                   [ mkStage "Image Preprocessing" 100 0.3%float
                       "Resizing to 224×224 and normalizing pixels";
                     mkStage "Feature Extraction" 100 0.6%float
                       "MobileNetV2 convolutional feature maps";
                     mkStage "Pattern Recognition" 100 0.9%float
                       "Identifying breed-specific visual patterns";
                     mkStage "Classification" 100 (Js.parseFloat elapsed)
                       "Softmax prediction across 50 breeds" ]
                   (mkCalculations "224 × 224 (50,176 pixels)" elapsed
                      "MobileNetV2" "50 Indian cattle breeds"))
        end
  end.

(** ** Component state and what is in flight *)

(** Who is waiting for a [handleAnalyzeImage] promise. *)
Inductive Caller : Type :=
| FromClick
    (* onClick={() => handleAnalyzeImage(image.id)}: nobody awaits it *)
| FromAnalyzeAll (imgs : list Image.t) (rest : list Image.t).
    (* the for...of of handleAnalyzeAll, suspended at its await: the images
       its closure captured and the unanalyzed images still to visit *)

(** A [handleAnalyzeImage] suspended at [await analyzeImage(image.file, imageId)]. *)
Record Pending : Type := mkPending {
  p_imageId : Z;
  p_file : File;
  p_caller : Caller
}.

(** What the client saw, in order. *)
Inductive LogEntry : Type :=
| Called (imageId : Z)                   (* fetch issued *)
| Settled (imageId : Z) (ok : bool).     (* its promise settled *)

Record State : Type := mkState {
  images : list Image.t;                 (* useState([]) *)
  analyzingAll : bool;                   (* useState(false) *)
  expandedImage : option Image.t;        (* useState(null) *)
  pending : list Pending;                (* suspended handleAnalyzeImage calls *)
  timeouts : list Z;                     (* setTimeout(..., 2000) not yet fired, by imageId *)
  readers : list Z;                      (* FileReaders still loading, by imageId *)
  log : list LogEntry;                   (* client log, oldest first *)
  unhandled : list Js.Error              (* rejections nobody caught *)
}.

Definition initial : State := mkState [] false None [] [] [] [] [].

Definition setImages (f : list Image.t -> list Image.t) (st : State) : State :=
  mkState (f (images st)) (analyzingAll st) (expandedImage st) (pending st)
          (timeouts st) (readers st) (log st) (unhandled st).

Definition setAnalyzingAll (b : bool) (st : State) : State :=
  mkState (images st) b (expandedImage st) (pending st)
          (timeouts st) (readers st) (log st) (unhandled st).

Definition setExpandedImage (e : option Image.t) (st : State) : State :=
  mkState (images st) (analyzingAll st) e (pending st)
          (timeouts st) (readers st) (log st) (unhandled st).

Definition setTimeout (imageId : Z) (st : State) : State :=
  mkState (images st) (analyzingAll st) (expandedImage st) (pending st)
          (timeouts st ++ [imageId]) (readers st) (log st) (unhandled st).

Definition set_pending (ps : list Pending) (st : State) : State :=
  mkState (images st) (analyzingAll st) (expandedImage st) ps
          (timeouts st) (readers st) (log st) (unhandled st).

Definition set_timeouts (ts : list Z) (st : State) : State :=
  mkState (images st) (analyzingAll st) (expandedImage st) (pending st)
          ts (readers st) (log st) (unhandled st).

Definition set_readers (rs : list Z) (st : State) : State :=
  mkState (images st) (analyzingAll st) (expandedImage st) (pending st)
          (timeouts st) rs (log st) (unhandled st).

Definition add_log (e : LogEntry) (st : State) : State :=
  mkState (images st) (analyzingAll st) (expandedImage st) (pending st)
          (timeouts st) (readers st) (log st ++ [e]) (unhandled st).

Definition add_unhandled (e : Js.Error) (st : State) : State :=
  mkState (images st) (analyzingAll st) (expandedImage st) (pending st)
          (timeouts st) (readers st) (log st) (unhandled st ++ [e]).

(** The call [analyzeImage(image.file, imageId)] up to its [fetch]: the
    request goes out and the caller is parked until it settles. *)
Definition fetch_predict (imageId : Z) (f : File) (c : Caller) (st : State) : State :=
  add_log (Called imageId)
          (set_pending (pending st ++ [mkPending imageId f c]) st).

(** ** The object spreads of the [setImages] updaters *)

(** [{ ...img, preview: url }] *)
Definition with_preview (url : string) (img : Image.t) : Image.t :=
  Image.mk (Image.id img) (Image.file img) (Some url) (Image.analyzing img)
           (Image.result img) (Image.currentStage img) (Image.error img).

(** [{ ...img, analyzing: true, currentStage: 0, error: null }] *)
Definition with_analyzing_started (img : Image.t) : Image.t :=
  Image.mk (Image.id img) (Image.file img) (Image.preview img) true
           (Image.result img) 0 None.

(** [{ ...img, result: result }] *)
Definition with_result (r : Result.t) (img : Image.t) : Image.t :=
  Image.mk (Image.id img) (Image.file img) (Image.preview img) (Image.analyzing img)
           (Some r) (Image.currentStage img) (Image.error img).

(** [{ ...img, analyzing: false }] *)
Definition with_analyzing_done (img : Image.t) : Image.t :=
  Image.mk (Image.id img) (Image.file img) (Image.preview img) false
           (Image.result img) (Image.currentStage img) (Image.error img).

(** [{ ...img, analyzing: false, error: msg }] *)
Definition with_error (msg : string) (img : Image.t) : Image.t :=
  Image.mk (Image.id img) (Image.file img) (Image.preview img) false
           (Image.result img) (Image.currentStage img) (Some msg).

(** [{ ...prevImg, currentStage: prevImg.currentStage + 1 }] *)
Definition with_next_stage (img : Image.t) : Image.t :=
  Image.mk (Image.id img) (Image.file img) (Image.preview img) (Image.analyzing img)
           (Image.result img) (Image.currentStage img + 1) (Image.error img).

(** [prevImages.map(img => img.id === imageId ? f(img) : img)] *)
Definition map_id (imageId : Z) (f : Image.t -> Image.t) (prevImages : list Image.t)
  : list Image.t :=
  map (fun img => if Image.id img =? imageId then f img else img) prevImages.

(** ** Ingestion: [handleFiles]

    [now i] is what [Date.now()] returns when the callback of [files.map]
    runs for index [i]. *)
Definition new_image (now : nat -> Z) (index : nat) (f : File) : Image.t :=
  Image.mk (now index + Z.of_nat index) f None false None 0 None.

Fixpoint map_index {A B : Type} (g : nat -> A -> B) (index : nat) (l : list A) : list B :=
  match l with
  | [] => []
  | x :: l' => g index x :: map_index g (S index) l'
  end.

Definition newImages (now : nat -> Z) (files : list File) : list Image.t :=
  map_index (new_image now) 0%nat files.

Definition handleFiles (now : nat -> Z) (files : list File) (st : State) : State :=
  let newImages := newImages now files in
  setImages (fun prevImages => prevImages ++ newImages)
            (set_readers (readers st ++ map Image.id newImages) st).

(** [reader.onload]: the preview arrives for whatever then carries the id. *)
Definition reader_onload (imageId : Z) (url : string) (st : State) : State :=
  setImages (map_id imageId (with_preview url)) st.

(** ** The per-item analyze operation: [handleAnalyzeImage] *)

Inductive Progress : Type :=
| Returned       (* the async function ran to its end *)
| Suspended.     (* it is parked at its await *)

(** Up to the [await]; [imgs] is the [images] the handler closed over. *)
Definition handleAnalyzeImage (imgs : list Image.t) (imageId : Z) (c : Caller)
    (st : State) : Progress * State :=
  match find (fun img => Image.id img =? imageId) imgs with
  | None => (Returned, st)
  | Some image =>
      (Suspended,
       fetch_predict imageId (Image.file image) c
         (setImages (map_id imageId with_analyzing_started) st))
  end.

(** How a promise ends. *)
Inductive Completion : Type :=
| Fulfilled
| Rejected (reason : Js.Error).

(** From the [await] on: the [try] body when [analyzeImage] fulfilled, the
    [catch] when it rejected. *)
Definition handleAnalyzeImage_settled (imageId : Z) (r : Result.t + Js.Error)
    (st : State) : Completion * State :=
  match r with
  | inl result =>
      (Fulfilled, setTimeout imageId (setImages (map_id imageId (with_result result)) st))
  | inr err =>
      (Fulfilled,
       setImages (map_id imageId
                    (with_error (Js.str_or (Js.message err) "Analysis failed"))) st)
  end.

(** The callback of [setTimeout(..., 2000)]. *)
Definition timeout_fires (imageId : Z) (st : State) : State :=
  setImages (map_id imageId with_analyzing_done) st.

(** ** The batch sweep: [handleAnalyzeAll] *)

(** The [for (const image of unanalyzedImages) await handleAnalyzeImage(image.id)]
    loop from the item [rest] starts with, then [setAnalyzingAll(false)]. *)
Fixpoint analyzeAll_loop (imgs rest : list Image.t) (st : State) : State :=
  match rest with
  | [] => setAnalyzingAll false st
  | image :: rest' =>
      match handleAnalyzeImage imgs (Image.id image) (FromAnalyzeAll imgs rest') st with
      | (Suspended, st') => st'
      | (Returned, st') => analyzeAll_loop imgs rest' st'
      end
  end.

Definition handleAnalyzeAll (imgs : list Image.t) (st : State) : State :=
  let st1 := setAnalyzingAll true st in
  let unanalyzedImages := List.filter (fun img => negb (Image.has_result img)) imgs in
  analyzeAll_loop imgs unanalyzedImages st1.

Definition fulfilled {A B : Type} (r : A + B) : bool :=
  match r with inl _ => true | inr _ => false end.

(** A parked [handleAnalyzeImage] goes on when its [analyzeImage] settles,
    and then whoever awaited it does. *)
Definition resume (p : Pending) (r : Result.t + Js.Error) (st : State) : State :=
  let st0 := add_log (Settled (p_imageId p) (fulfilled r)) st in
  let '(c, st1) := handleAnalyzeImage_settled (p_imageId p) r st0 in
  match c, p_caller p with
  | Fulfilled, FromClick => st1
  | Fulfilled, FromAnalyzeAll imgs rest => analyzeAll_loop imgs rest st1
  | Rejected e, _ => add_unhandled e st1
  end.

(** ** Removal and reset *)

Definition handleRemoveImage (imageId : Z) (st : State) : State :=
  setImages (List.filter (fun img => negb (Image.id img =? imageId))) st.

Definition handleReset (st : State) : State :=
  setExpandedImage None (setImages (fun _ => []) st).

(** ** The stage animation: the [setInterval] callback of the [useEffect]

    [None] is the [TypeError] of reading [detectionStages] of a [null]
    result, which an item with the interval's id and no result raises. *)
Fixpoint interval_tick (imageId : Z) (prevImages : list Image.t)
  : option (list Image.t) :=
  match prevImages with
  | [] => Some []
  | prevImg :: rest =>
      match interval_tick imageId rest with
      | None => None
      | Some rest' =>
          if Image.id prevImg =? imageId then
            match Image.result prevImg with
            | None => None
            | Some r =>
                if Image.currentStage prevImg
                   <? Z.of_nat (length (Result.detectionStages r)) - 1
                then Some (with_next_stage prevImg :: rest')
                else Some (prevImg :: rest')
            end
          else Some (prevImg :: rest')
      end
  end.

(** ** Statistics: [getOverallStats] *)

(** A JavaScript [Set] of strings: its elements in insertion order. *)
Definition Set_add (x : string) (s : list string) : list string :=
  if existsb (String.eqb x) s then s else s ++ [x].

Definition new_Set (l : list string) : list string :=
  fold_left (fun s x => Set_add x s) l [].

(** [avgConfidence] is a [toFixed] string, or the number [0]. *)
Inductive AvgConfidence : Type :=
| AvgNumber (x : float)
| AvgString (s : Js.NumString).

Record Stats : Type := mkStats {
  total : nat;
  analyzed : nat;
  uniqueBreeds : nat;
  avgConfidence : AvgConfidence
}.

(** The [img.result] of images that have one. *)
Definition results_of (l : list Image.t) : list Result.t :=
  flat_map (fun img => match Image.result img with Some r => [r] | None => [] end) l.

Definition Number_of_nat (n : nat) : float :=
  PrimFloat.of_uint63 (Uint63.of_Z (Z.of_nat n)).

Definition getOverallStats (imgs : list Image.t) : Stats :=
  let analyzed := List.filter Image.has_result imgs in
  let uniqueBreeds := length (new_Set (map Result.breed (results_of analyzed))) in
  let avgConfidence :=
    if (0 <? length analyzed)%nat then
      AvgString
        (Js.toFixed
           (fold_left (fun sum r => sum + Js.parseFloat (Result.confidence r))
                      (results_of analyzed) 0
            / Number_of_nat (length analyzed))%float
           1)
    else AvgNumber 0%float in
  mkStats (length imgs) (length analyzed) uniqueBreeds avgConfidence.

(** ** What the cards show: the lifecycle read off an item

    The store has no lifecycle field.  A card shows results when [result]
    is set, the spinner when [analyzing] without one, the error box with its
    retry button when [error && !result && !analyzing], and the analyze
    button when [!result && !analyzing]. *)
Inductive Lifecycle : Type := Queued | Analyzing | Completed | Failed.

Definition lifecycleState (img : Image.t) : Lifecycle :=
  if Image.has_result img then Completed
  else if Image.analyzing img then Analyzing
  else if Image.has_error img then Failed
  else Queued.

(** ** The event loop

    Each event is one task of the browser: a user gesture on a control that
    is rendered and enabled, or a callback of the environment.  A gesture on
    a control that is not there, and a callback that is not pending, change
    nothing.  A stage tick that throws is not a step (the component does not
    survive it); which intervals exist is not tracked, so a tick may come
    for any id at any time, which only adds behaviours. *)
Inductive Event : Type :=
| AddFiles (now : nat -> Z) (files : list File)   (* handleChange / handleDrop *)
| ReaderLoads (k : nat) (url : string)            (* the k-th loading reader's onload *)
| ClickAnalyze (imageId : Z)                      (* "Analyze This Image" / retry *)
| ClickAnalyzeAll                                 (* "Analyze All" *)
| ClickRemove (imageId : Z)
| ClickReset
| FetchSettles (k : nat) (out : FetchOutcome) (elapsed_ms : float)
                                                  (* the k-th parked call's fetch settles *)
| TimeoutFires (k : nat)                          (* the k-th pending setTimeout *)
| IntervalTicks (imageId : Z).                    (* a stage interval of that image *)

Fixpoint remove_nth {A : Type} (k : nat) (l : list A) : list A :=
  match k, l with
  | _, [] => []
  | O, _ :: l' => l'
  | S k', x :: l' => x :: remove_nth k' l'
  end.

(** The card of an image with this id shows an analyze button:
    [!image.result && !image.analyzing]. *)
Definition analyze_button_shown (imageId : Z) (imgs : list Image.t) : bool :=
  existsb (fun image => (Image.id image =? imageId)
                        && negb (Image.has_result image)
                        && negb (Image.analyzing image)) imgs.

(** "Analyze All" is rendered when there are images and is
    [disabled={analyzingAll || stats.analyzed === stats.total}]. *)
Definition analyzeAll_button_enabled (st : State) : bool :=
  let stats := getOverallStats (images st) in
  (0 <? length (images st))%nat
  && negb (analyzingAll st || (analyzed stats =? total stats)%nat).

Definition step (ev : Event) (st : State) : State :=
  match ev with
  | AddFiles now files =>
      if (0 <? length files)%nat then handleFiles now files st else st
  | ReaderLoads k url =>
      match nth_error (readers st) k with
      | Some imageId => reader_onload imageId url (set_readers (remove_nth k (readers st)) st)
      | None => st
      end
  | ClickAnalyze imageId =>
      if analyze_button_shown imageId (images st)
      then snd (handleAnalyzeImage (images st) imageId FromClick st)
      else st
  | ClickAnalyzeAll =>
      if analyzeAll_button_enabled st then handleAnalyzeAll (images st) st else st
  | ClickRemove imageId =>
      if existsb (fun image => Image.id image =? imageId) (images st)
      then handleRemoveImage imageId st else st
  | ClickReset =>
      if (0 <? length (images st))%nat then handleReset st else st
  | FetchSettles k out elapsed_ms =>
      match nth_error (pending st) k with
      | Some p =>
          resume p (analyzeImage (p_imageId p) out elapsed_ms)
                 (set_pending (remove_nth k (pending st)) st)
      | None => st
      end
  | TimeoutFires k =>
      match nth_error (timeouts st) k with
      | Some imageId => timeout_fires imageId (set_timeouts (remove_nth k (timeouts st)) st)
      | None => st
      end
  | IntervalTicks imageId =>
      match interval_tick imageId (images st) with
      | Some imgs => setImages (fun _ => imgs) st
      | None => st
      end
  end.

Definition run (evs : list Event) (st : State) : State :=
  fold_left (fun s ev => step ev s) evs st.

(** ** Derived notions the properties are stated with *)

(** An item does not carry a result and an error at once. *)
Definition exclusive (img : Image.t) : Prop :=
  Image.result img = None \/ Image.error img = None.

Definition is_sweep (p : Pending) : bool :=
  match p_caller p with FromAnalyzeAll _ _ => true | FromClick => false end.

(** The [handleAnalyzeAll] executions that have not reached their end. *)
Definition active_sweeps (st : State) : nat :=
  length (List.filter is_sweep (pending st)).

(** The flag is up exactly while one sweep is active, and there is never
    more than one. *)
Definition sweep_flag_agrees (st : State) : Prop :=
  (analyzingAll st = true /\ active_sweeps st = 1%nat)
  \/ (analyzingAll st = false /\ active_sweeps st = 0%nat).

(** The ids the client was called for, in order. *)
Definition calls_of (l : list LogEntry) : list Z :=
  flat_map (fun e => match e with Called i => [i] | Settled _ _ => [] end) l.

(** A sweep left alone: each outcome settles the call parked at position
    [k], where the sweep parked its own. *)
Definition settle_each (k : nat) (outs : list (FetchOutcome * float)) (st : State) : State :=
  run (map (fun o => FetchSettles k (fst o) (snd o)) outs) st.

(** The client log of a sweep over [sel] after the outcomes [outs]: one call
    per item, each issued when the one before it has settled. *)
Fixpoint sweep_log (sel : list Image.t) (outs : list (FetchOutcome * float))
  : list LogEntry :=
  match sel, outs with
  | [], _ => []
  | image :: _, [] => [Called (Image.id image)]
  | image :: sel', o :: outs' =>
      Called (Image.id image)
      :: Settled (Image.id image)
                 (fulfilled (analyzeImage (Image.id image) (fst o) (snd o)))
      :: sweep_log sel' outs'
  end.

(** [handleFiles] called once per element of [calls]. *)
Definition ingest (calls : list ((nat -> Z) * list File)) (st : State) : State :=
  fold_left (fun s c => handleFiles (fst c) (snd c) s) calls st.

(** [Date.now()] never decreases while a call maps over its files, and
    every call starts no earlier than [bound]: at first a reading above the
    ids already in the store, then the last reading of the call before plus
    the number of its files. *)
Fixpoint clocks_apart (bound : Z) (calls : list ((nat -> Z) * list File)) : Prop :=
  match calls with
  | [] => True
  | c :: rest =>
      bound <= fst c 0%nat
      /\ (forall i j : nat, (i <= j)%nat -> fst c i <= fst c j)
      /\ clocks_apart (fst c (length (snd c) - 1)%nat + Z.of_nat (length (snd c))) rest
  end.

#[global] Instance Lifecycle_eq_dec : EqDecision Lifecycle.
Proof. solve_decision. Defined.

(** [n / 10] is a decimal with one fraction digit nearest to [|x|]. *)
Definition nearest_tenth (x : float) (n : Z) : Prop :=
  match Prim2SF x with
  | S754_zero _ => n = 0
  | S754_finite _ m e =>
      if 0 <=? e then n = 10 * Z.pos m * 2 ^ e
      else 2 * Z.abs (n * 2 ^ (- e) - 10 * Z.pos m) <= 2 ^ (- e)
  | S754_infinity _ | S754_nan => False
  end.

(** The mean of the confidences, as [getOverallStats] computes it: the
    parsed strings summed left to right from [0], divided by the count. *)
Definition mean_confidence (rs : list Result.t) : float :=
  (fold_left (fun sum r => sum + Js.parseFloat (Result.confidence r)) rs 0
   / Number_of_nat (length rs))%float.

(** ** Sessions used as examples *)

Definition fileA : File := mkFile "a.jpg".
Definition fileB : File := mkFile "b.jpg".

(** Two files dropped at clock reading 1000: ids 1000 and 1001. *)
Definition two_queued : State :=
  run [AddFiles (fun _ => 1000) [fileA; fileB]] initial.

Definition responds (b : string) (c : float) : FetchOutcome :=
  FetchResponds true 200 "" (inl (mkPredictData b c [])).

Definition responds_500 : FetchOutcome :=
  FetchResponds false 500 "boom" (inr (Js.mkError "Unexpected token")).

(** The first item was clicked and its call is outstanding. *)
Definition first_analyzing : State := run [ClickAnalyze 1000] two_queued.

(** "Analyze All" was clicked and the sweep is parked on the first item. *)
Definition sweep_started : State := run [ClickAnalyzeAll] two_queued.

(** Both analyzed: Gir at 90.0 and Sahiwal at 80.0. *)
Definition two_completed : State :=
  run [ClickAnalyzeAll;
       FetchSettles 0 (responds "Gir" 90.0) 120;
       FetchSettles 0 (responds "Sahiwal" 80.0) 340] two_queued.

(** "Analyze All", then a click on the second item while the first is under
    way; the second item's own call succeeds, the first item's call
    succeeds, and the call the sweep then issues for the second fails. *)
Definition second_analyzed_twice : State :=
  run [ClickAnalyzeAll;
       ClickAnalyze 1001;
       FetchSettles 1 (responds "Gir" 90.0) 120;
       FetchSettles 0 (responds "Gir" 90.0) 120;
       FetchSettles 0 responds_500 10] two_queued.

(** "Analyze All", then the second item is removed while the first is
    under way, then the first item's call succeeds. *)
Definition removed_during_sweep : State :=
  run [ClickAnalyzeAll;
       ClickRemove 1001;
       FetchSettles 0 (responds "Gir" 90.0) 120] two_queued.

(** Two drops of one file each within the same millisecond. *)
Definition same_instant : State :=
  ingest [((fun _ => 1000), [fileA]); ((fun _ => 1000), [fileB])] initial.

(** ** Notions for the properties of the remaining code *)

(** The second item is the first one as it is later: same id and file, and
    a result if the first had one. *)
Definition same_item (a b : Image.t) : Prop :=
  Image.id b = Image.id a
  /\ Image.file b = Image.file a
  /\ (Image.result a <> None -> Image.result b <> None).

(** The images that carry an id. *)
Definition with_id (imageId : Z) (l : list Image.t) : list Image.t :=
  List.filter (fun img => Image.id img =? imageId) l.

Definition is_ingestion (ev : Event) : bool :=
  match ev with AddFiles _ _ => true | _ => false end.

(** The stage shown is one of the four of a result of [analyzeImage], and
    the first one while there is no result. *)
Definition stage_in_range (img : Image.t) : Prop :=
  0 <= Image.currentStage img <= 3
  /\ match Image.result img with
     | Some r => length (Result.detectionStages r) = 4%nat
     | None => Image.currentStage img = 0
     end.

(** The response is [ok] and its body parses. *)
Definition succeeds (o : FetchOutcome * float) : bool :=
  match fst o with
  | FetchResponds true _ _ (inl _) => true
  | _ => false
  end.

(** [avgConfidence] of a store whose only analyzed item has the one-decimal
    confidence [n / 10]. *)
Definition average_of_one (n : Z) : Js.NumString :=
  Js.toFixed ((0 + Js.parseFloat (Js.Fixed false n 1)) / Number_of_nat 1)%float 1.

Definition average_of_one_is_itself (n : Z) : bool :=
  match average_of_one n with
  | Js.Fixed false m 1 => m =? n
  | _ => false
  end.

(** What the start of an attempt for an id makes of an image of the store:
    the updater of [handleAnalyzeImage] before its [await]. *)
Definition started_image (imageId : Z) (img : Image.t) : Image.t :=
  if Image.id img =? imageId then with_analyzing_started img else img.

(** What the end of the attempt makes of it: the updater of the [try] body
    or of the [catch]. *)
Definition settled_image (imageId : Z) (r : Result.t + Js.Error) (img : Image.t)
  : Image.t :=
  if Image.id img =? imageId then
    match r with
    | inl result => with_result result img
    | inr err => with_error (Js.str_or (Js.message err) "Analysis failed") img
    end
  else img.

(** What a sweep over [sel], left alone, has made of an image once the
    outcomes [outs] have come in: the attempts of the first items started
    and settled in turn, the next one started. *)
Fixpoint sweep_image (sel : list Image.t) (outs : list (FetchOutcome * float))
    (img : Image.t) : Image.t :=
  match sel, outs with
  | [], _ => img
  | image :: _, [] => started_image (Image.id image) img
  | image :: sel', o :: outs' =>
      sweep_image sel' outs'
        (settled_image (Image.id image)
           (analyzeImage (Image.id image) (fst o) (snd o))
           (started_image (Image.id image) img))
  end.

(** The item's analyze has reached its end. *)
Definition terminal (img : Image.t) : Prop :=
  lifecycleState img = Completed \/ lifecycleState img = Failed.

(** The state in which the failing call of [second_analyzed_twice] is
    outstanding: the second item has the result of its click, and the sweep
    has started an attempt on it. *)
Definition second_called_again : State :=
  run [ClickAnalyzeAll;
       ClickAnalyze 1001;
       FetchSettles 1 (responds "Gir" 90.0) 120;
       FetchSettles 0 (responds "Gir" 90.0) 120] two_queued.

(** Something is under way for the id: a parked call or a settle timer. *)
Definition under_way (imageId : Z) (st : State) : Prop :=
  In imageId (map p_imageId (pending st)) \/ In imageId (timeouts st).

(** Every image marked analyzing has something under way for its id. *)
Definition spinners_are_backed (st : State) : Prop :=
  Forall (fun img => Image.analyzing img = true -> under_way (Image.id img) st)
         (images st).

(** A parked click call for the first item settles with [out]. *)
Definition first_settles_with (out : FetchOutcome) : State :=
  run [FetchSettles 0 out 120] first_analyzing.

(** * Properties *)

(** ** Updaters only touch the id they name *)

Lemma map_id_absent imageId f l :
  (forall img, In img l -> Image.id img <> imageId) -> map_id imageId f l = l.
Proof.
  unfold map_id. induction l as [|img l IH]; intros Hno; simpl; [reflexivity|].
  rewrite IH by (intros x Hx; apply Hno; right; exact Hx).
  destruct (Z.eqb_spec (Image.id img) imageId) as [E|_]; [|reflexivity].
  exfalso. apply (Hno img); [left; reflexivity | exact E].
Qed.

Lemma find_id_none imageId l :
  (forall img, In img l -> Image.id img <> imageId) ->
  find (fun img => Image.id img =? imageId) l = None.
Proof.
  induction l as [|img l IH]; intros Hno; simpl; [reflexivity|].
  destruct (Z.eqb_spec (Image.id img) imageId) as [E|_].
  - exfalso. apply (Hno img); [left; reflexivity | exact E].
  - apply IH. intros x Hx. apply Hno. right. exact Hx.
Qed.

Lemma removed_id_absent imageId l img :
  In img (List.filter (fun img => negb (Image.id img =? imageId)) l) ->
  Image.id img <> imageId.
Proof.
  intros Hin. apply filter_In in Hin. destruct Hin as [_ Hb].
  destruct (Z.eqb_spec (Image.id img) imageId); [discriminate | assumption].
Qed.

(** C10, as the code has it: [handleAnalyzeImage] looks the id up in the
    [images] it closed over.  With an id that none of those carries it
    returns at once and the whole state (store, parked calls, client log) is
    what it was: nothing mutated, no call issued.  For a click the closure is
    the store, and a click for an id the store does not have changes
    nothing. *)
Theorem handleAnalyzeImage_unknown_id
    (imgs : list Image.t) (st : State) (imageId : Z) (c : Caller) :
  (forall img, In img imgs -> Image.id img <> imageId) ->
  handleAnalyzeImage imgs imageId c st = (Returned, st)
  /\ (imgs = images st -> step (ClickAnalyze imageId) st = st).
Proof.
  intros Hno. unfold handleAnalyzeImage.
  rewrite (find_id_none imageId imgs Hno). split; [reflexivity|].
  intros ->. simpl. destruct (analyze_button_shown imageId (images st)); [|reflexivity].
  unfold handleAnalyzeImage. rewrite (find_id_none imageId (images st) Hno).
  reflexivity.
Qed.

Lemma handleAnalyzeImage_unknown_id_witness :
  (forall img, In img (images two_queued) -> Image.id img <> 7) /\
  handleAnalyzeImage (images two_queued) 7 FromClick two_queued = (Returned, two_queued).
Proof.
  assert (H : forall img, In img (images two_queued) -> Image.id img <> 7).
  { intros img [E|[E|[]]]; subst img; simpl; lia. }
  split; [exact H|].
  exact (proj1 (handleAnalyzeImage_unknown_id (images two_queued) two_queued 7
                  FromClick H)).
Defined.

(** C10 as stated fails when the closure is older than the store: a sweep
    keeps the [images] of the render it was started in, so for an item
    removed while the sweep was under way it still finds the id there, and
    calls the client for an id the store no longer has. *)
Lemma sweep_calls_for_a_removed_item :
  map Image.id (images (run [ClickAnalyzeAll; ClickRemove 1001] two_queued)) = [1000]
  /\ log removed_during_sweep = [Called 1000; Settled 1000 true; Called 1001]
  /\ map p_imageId (pending removed_during_sweep) = [1001]
  /\ map Image.id (images removed_during_sweep) = [1000]
  /\ fst (handleAnalyzeImage (images two_queued) 1001 FromClick
             (handleRemoveImage 1001 two_queued)) = Suspended.
Proof. repeat split; reflexivity. Qed.

(** C7: once [handleRemoveImage] has removed an item, the rest of a
    [handleAnalyzeImage] that was parked for it, run with either outcome,
    finds no image with the id: the store stays as removal left it, through
    the settle timer too, the promise is fulfilled and nothing is left
    unhandled. *)
Theorem settle_after_remove_is_discarded (st : State) (imageId : Z)
    (f : File) (r : Result.t + Js.Error) :
  let removed := handleRemoveImage imageId st in
  let after := handleAnalyzeImage_settled imageId r removed in
  fst after = Fulfilled
  /\ images (snd after) = images removed
  /\ images (timeout_fires imageId (snd after)) = images removed
  /\ images (resume (mkPending imageId f FromClick) r removed) = images removed
  /\ unhandled (resume (mkPending imageId f FromClick) r removed) = unhandled st.
Proof.
  intros removed after.
  assert (Hno : forall img, In img (images removed) -> Image.id img <> imageId).
  { intros img. apply removed_id_absent. }
  assert (Hafter : fst after = Fulfilled /\ images (snd after) = images removed).
  { unfold after. destruct r as [res|err]; simpl; (split; [reflexivity|]);
      apply map_id_absent; exact Hno. }
  destruct Hafter as [Hc Hi].
  repeat split.
  - exact Hc.
  - exact Hi.
  - unfold timeout_fires. simpl. rewrite Hi. apply map_id_absent. exact Hno.
  - unfold resume. destruct r as [res|err]; simpl; apply map_id_absent; exact Hno.
  - unfold resume. destruct r as [res|err]; reflexivity.
Qed.

(** ** A failed attempt *)

Lemma str_or_nonempty a b : b <> ""%string -> Js.str_or a b <> ""%string.
Proof.
  intros Hb. unfold Js.str_or.
  destruct (String.eqb_spec a ""); [exact Hb | assumption].
Qed.

Lemma str_or_left a b : a <> ""%string -> Js.str_or a b = a.
Proof.
  intros Ha. unfold Js.str_or.
  destruct (String.eqb_spec a ""); [contradiction | reflexivity].
Qed.

Lemma failure_message_nonempty (err : Js.Error) :
  String.eqb (Js.str_or (Js.message err) "Analysis failed") "" = false.
Proof.
  apply String.eqb_neq. apply str_or_nonempty. discriminate.
Qed.

(** C6, as the code has it: when an attempt that [handleAnalyzeImage]
    started fails, every image with the id gets [error] set to the failure's
    message (to ["Analysis failed"] when the message is empty) and
    [analyzing] false, at once and with no settle timer; its [result] is
    what it was before the attempt.  With no result it then shows as
    [Failed]; with a result it goes on showing as [Completed].  Images with
    another id are untouched.  A response that is not [ok] fails with its
    body text, or with the status when the body is empty. *)
Theorem failed_analyze_sets_error_keeps_result
    (st st1 : State) (imgs : list Image.t) (imageId : Z) (c : Caller)
    (err : Js.Error) :
  handleAnalyzeImage imgs imageId c st = (Suspended, st1) ->
  let st2 := snd (handleAnalyzeImage_settled imageId (inr err) st1) in
  let msg := Js.str_or (Js.message err) "Analysis failed" in
  timeouts st2 = timeouts st
  /\ (Js.message err <> ""%string -> msg = Js.message err)
  /\ Forall2 (fun img img' =>
                Image.id img' = Image.id img
                /\ Image.result img' = Image.result img
                /\ (Image.id img = imageId ->
                    Image.analyzing img' = false
                    /\ Image.error img' = Some msg
                    /\ (Image.result img = None -> lifecycleState img' = Failed)
                    /\ (Image.result img <> None -> lifecycleState img' = Completed))
                /\ (Image.id img <> imageId -> img' = img))
             (images st) (images st2)
  /\ (forall status text json ms,
        analyzeImage imageId (FetchResponds false status text json) ms
        = inr (Js.mkError
                 (Js.str_or text ("Server error: " ++ Js.string_of_Z status)))).
Proof.
  intros Hstart st2 msg.
  unfold handleAnalyzeImage in Hstart.
  destruct (find _ imgs) as [image|]; [|discriminate].
  injection Hstart as <-.
  split; [reflexivity|].
  split; [apply str_or_left|].
  split; [|reflexivity].
  subst st2. simpl. unfold map_id. fold msg.
  induction (images st) as [|img l IH]; simpl; constructor; [|exact IH].
  destruct (Z.eqb_spec (Image.id img) imageId) as [E|N]; simpl.
  - rewrite (proj2 (Z.eqb_eq _ _) E). simpl.
    repeat split; try reflexivity; try contradiction.
    + intros Hnone.
      unfold lifecycleState, Image.has_result, Image.has_error. simpl.
      rewrite Hnone. unfold msg. rewrite failure_message_nonempty. reflexivity.
    + intros Hsome.
      unfold lifecycleState, Image.has_result. simpl.
      destruct (Image.result img); [reflexivity | contradiction].
  - rewrite (proj2 (Z.eqb_neq _ _) N).
    repeat split; try reflexivity; try contradiction.
Qed.

Lemma failed_analyze_sets_error_keeps_result_witness :
  handleAnalyzeImage (images two_queued) 1000 FromClick two_queued
    = (Suspended, first_analyzing)
  /\ timeouts (snd (handleAnalyzeImage_settled 1000 (inr (Js.mkError "boom"))
                       first_analyzing))
     = timeouts two_queued.
Proof.
  assert (H : handleAnalyzeImage (images two_queued) 1000 FromClick two_queued
              = (Suspended, first_analyzing)) by reflexivity.
  split; [exact H|].
  exact (proj1 (failed_analyze_sets_error_keeps_result
                  two_queued first_analyzing (images two_queued) 1000 FromClick
                  (Js.mkError "boom") H)).
Defined.

(** C6 as stated fails on the state: a failed analyze of an item that already
    has a result does not make it [Failed].  In the session in which the
    sweep calls again for the second item, analyzed meanwhile by a click,
    the failure of that call sets the error and clears [analyzing], and the
    item goes on showing as [Completed]. *)
Lemma failed_analyze_of_analyzed_item_stays_completed :
  map p_imageId (pending second_called_again) = [1001]
  /\ map (fun img => (Image.has_result img, Image.analyzing img, Image.error img))
         (images second_called_again)
     = [(true, true, None); (true, true, None)]
  /\ step (FetchSettles 0 responds_500 10) second_called_again = second_analyzed_twice
  /\ log second_analyzed_twice
     = [Called 1000; Called 1001; Settled 1001 true; Settled 1000 true;
        Called 1001; Settled 1001 false]
  /\ map (fun img => (lifecycleState img, Image.analyzing img, Image.error img))
         (images second_analyzed_twice)
     = [(Completed, true, None); (Completed, false, Some "boom"%string)].
Proof.
  split; [vm_compute; reflexivity|].
  split; [vm_compute; reflexivity|].
  split; [vm_compute; reflexivity|].
  split; vm_compute; reflexivity.
Qed.

(** ** Reentrancy: where the guards are *)

Lemma analyze_button_hidden imageId l :
  (forall img, In img l -> Image.id img = imageId -> Image.analyzing img = true) ->
  analyze_button_shown imageId l = false.
Proof.
  intros Hall. unfold analyze_button_shown.
  induction l as [|img l IH]; simpl; [reflexivity|].
  rewrite IH by (intros x Hx; apply Hall; right; exact Hx).
  destruct (Z.eqb_spec (Image.id img) imageId) as [E|_]; simpl; [|reflexivity].
  rewrite (Hall img (or_introl eq_refl) E). simpl.
  rewrite andb_false_r. reflexivity.
Qed.

(** What [handleAnalyzeImage] does with an id it finds, whatever the
    item's state: one more call is parked and logged. *)
Lemma handleAnalyzeImage_found imgs imageId c st image :
  find (fun img => Image.id img =? imageId) imgs = Some image ->
  exists st',
    handleAnalyzeImage imgs imageId c st = (Suspended, st')
    /\ log st' = log st ++ [Called imageId]
    /\ pending st' = pending st ++ [mkPending imageId (Image.file image) c].
Proof.
  intros Hfind. unfold handleAnalyzeImage. rewrite Hfind.
  eexists. split; [reflexivity|]. split; reflexivity.
Qed.

(** C1, as the code has it: the guard is in the rendering.  While every
    image with the id is analyzing, no analyze button is shown for it, and a
    click on its analyze control changes nothing: the state, with its parked
    calls and its client log, is what it was. *)
Theorem analyze_guard_is_the_button (st : State) (imageId : Z) :
  (forall img, In img (images st) ->
               Image.id img = imageId -> Image.analyzing img = true) ->
  analyze_button_shown imageId (images st) = false
  /\ step (ClickAnalyze imageId) st = st.
Proof.
  intros Hall.
  pose proof (analyze_button_hidden imageId (images st) Hall) as Hhidden.
  split; [exact Hhidden|]. simpl. rewrite Hhidden. reflexivity.
Qed.

Lemma analyze_guard_is_the_button_witness :
  (forall img, In img (images first_analyzing) ->
               Image.id img = 1000 -> Image.analyzing img = true)
  /\ step (ClickAnalyze 1000) first_analyzing = first_analyzing.
Proof.
  assert (H : forall img, In img (images first_analyzing) ->
                          Image.id img = 1000 -> Image.analyzing img = true).
  { intros img [E|[E|[]]] Hid; subst img; [reflexivity | simpl in Hid; lia]. }
  split; [exact H | exact (proj2 (analyze_guard_is_the_button first_analyzing 1000 H))].
Defined.

(** C1 as stated fails: with the first item analyzing and its call
    outstanding, [handleAnalyzeImage] on it is not a no-op, and "Analyze All"
    (enabled, and selecting by [!img.result] only) reaches it: the client is
    called a second time for the id while the first call is unsettled. *)
Lemma analyzing_item_is_called_again :
  map lifecycleState (images first_analyzing) = [Analyzing; Queued]
  /\ log first_analyzing = [Called 1000]
  /\ fst (handleAnalyzeImage (images first_analyzing) 1000 FromClick first_analyzing)
     = Suspended
  /\ log (step ClickAnalyzeAll first_analyzing) = [Called 1000; Called 1000]
  /\ map p_imageId (pending (step ClickAnalyzeAll first_analyzing)) = [1000; 1000].
Proof. repeat split; reflexivity. Qed.

(** ** One sweep at a time *)

Lemma active_sweeps_app ps qs :
  length (List.filter is_sweep (ps ++ qs))
  = (length (List.filter is_sweep ps) + length (List.filter is_sweep qs))%nat.
Proof. rewrite List.filter_app, length_app. reflexivity. Qed.

(** The loop either parks one sweep call and leaves the flag, or ends,
    parks nothing and clears the flag. *)
Lemma analyzeAll_loop_cases imgs rest st :
  let st' := analyzeAll_loop imgs rest st in
  (analyzingAll st' = analyzingAll st
   /\ active_sweeps st' = S (active_sweeps st))
  \/ (analyzingAll st' = false /\ active_sweeps st' = active_sweeps st).
Proof.
  induction rest as [|image rest IH]; simpl.
  - right. split; reflexivity.
  - unfold handleAnalyzeImage.
    destruct (find _ imgs) as [found|].
    + left. split; [reflexivity|].
      unfold active_sweeps. simpl. rewrite active_sweeps_app. simpl. lia.
    + exact IH.
Qed.

Lemma settled_keeps_sweeps imageId r st :
  let st' := snd (handleAnalyzeImage_settled imageId r st) in
  fst (handleAnalyzeImage_settled imageId r st) = Fulfilled
  /\ analyzingAll st' = analyzingAll st
  /\ pending st' = pending st
  /\ unhandled st' = unhandled st.
Proof. destruct r; simpl; repeat split; reflexivity. Qed.

Lemma remove_nth_sweeps {k} {ps : list Pending} {p} :
  nth_error ps k = Some p ->
  length (List.filter is_sweep ps)
  = ((if is_sweep p then 1 else 0) + length (List.filter is_sweep (remove_nth k ps)))%nat.
Proof.
  revert k. induction ps as [|q ps IH]; intros [|k] H; simpl in *; try discriminate.
  - injection H as ->. destruct (is_sweep p); reflexivity.
  - specialize (IH k H). destruct (is_sweep q), (is_sweep p); simpl in *; lia.
Qed.


Lemma flag_agrees_ext st st' :
  analyzingAll st' = analyzingAll st -> pending st' = pending st ->
  sweep_flag_agrees st -> sweep_flag_agrees st'.
Proof.
  unfold sweep_flag_agrees, active_sweeps. intros -> ->. exact (fun H => H).
Qed.

Lemma enabled_means_no_sweep_flag st :
  analyzeAll_button_enabled st = true -> analyzingAll st = false.
Proof.
  unfold analyzeAll_button_enabled. intros H.
  apply andb_prop in H. destruct H as [_ H].
  apply negb_true_iff in H. apply orb_false_elim in H. tauto.
Qed.

Lemma step_keeps_flag ev st : sweep_flag_agrees st -> sweep_flag_agrees (step ev st).
Proof.
  intros Inv. destruct ev as [now files|k url|imageId| |imageId| |k out ms|k|imageId]; simpl.
  - destruct (0 <? length files)%nat; [|exact Inv].
    exact (flag_agrees_ext st _ eq_refl eq_refl Inv).
  - destruct (nth_error (readers st) k); [|exact Inv].
    exact (flag_agrees_ext st _ eq_refl eq_refl Inv).
  - destruct (analyze_button_shown imageId (images st)); [|exact Inv].
    unfold handleAnalyzeImage. destruct (find _ (images st)) as [image|]; [|exact Inv].
    simpl. unfold sweep_flag_agrees, active_sweeps in *. simpl.
    rewrite active_sweeps_app. simpl. rewrite Nat.add_0_r. exact Inv.
  - destruct (analyzeAll_button_enabled st) eqn:En; [|exact Inv].
    pose proof (enabled_means_no_sweep_flag st En) as Hflag.
    destruct Inv as [[Ht _]|[_ H0]]; [congruence|].
    unfold handleAnalyzeAll.
    destruct (analyzeAll_loop_cases (images st)
                (List.filter (fun img => negb (Image.has_result img)) (images st))
                (setAnalyzingAll true st)) as [[Hf Ha]|[Hf Ha]];
      unfold sweep_flag_agrees; rewrite Hf, Ha; unfold active_sweeps in *; simpl;
      rewrite H0; [left|right]; split; reflexivity.
  - destruct (existsb _ (images st)); [|exact Inv].
    exact (flag_agrees_ext st _ eq_refl eq_refl Inv).
  - destruct (0 <? length (images st))%nat; [|exact Inv].
    exact (flag_agrees_ext st _ eq_refl eq_refl Inv).
  - destruct (nth_error (pending st) k) as [p|] eqn:Hk; [|exact Inv].
    pose proof (remove_nth_sweeps Hk) as Hcount.
    unfold resume.
    set (st0 := add_log _ _).
    pose proof (settled_keeps_sweeps (p_imageId p)
                  (analyzeImage (p_imageId p) out ms) st0) as (Hc & Hf & Hp & _).
    destruct (handleAnalyzeImage_settled _ _ st0) as [c st1]. simpl in Hc, Hf, Hp.
    subst c.
    destruct (p_caller p) as [|imgs rest] eqn:Hcaller.
    + assert (Hs : is_sweep p = false) by (unfold is_sweep; rewrite Hcaller; reflexivity).
      rewrite Hs in Hcount. simpl in Hcount.
      unfold sweep_flag_agrees, active_sweeps in *. rewrite Hf, Hp. simpl.
      rewrite <- Hcount. exact Inv.
    + assert (Hs : is_sweep p = true) by (unfold is_sweep; rewrite Hcaller; reflexivity).
      rewrite Hs in Hcount.
      assert (Hflag : analyzingAll st1 = true /\ active_sweeps st1 = 0%nat).
      { unfold sweep_flag_agrees, active_sweeps in *. rewrite Hf, Hp. simpl.
        destruct Inv as [[Ht H1]|[_ H0]]; split; try assumption; lia. }
      destruct Hflag as [Ht H0].
      destruct (analyzeAll_loop_cases imgs rest st1) as [[Hf' Ha]|[Hf' Ha]];
        unfold sweep_flag_agrees; rewrite Hf', Ha, H0; [left|right]; split;
        auto.
  - destruct (nth_error (timeouts st) k); [|exact Inv].
    exact (flag_agrees_ext st _ eq_refl eq_refl Inv).
  - destruct (interval_tick imageId (images st)); [|exact Inv].
    exact (flag_agrees_ext st _ eq_refl eq_refl Inv).
Qed.

Lemma run_keeps_flag evs st : sweep_flag_agrees st -> sweep_flag_agrees (run evs st).
Proof.
  revert st. induction evs as [|ev evs IH]; intros st Inv; simpl; [exact Inv|].
  apply IH. apply step_keeps_flag. exact Inv.
Qed.

(** C4: in every session (any events from the empty one) at most one
    [handleAnalyzeAll] is under way; [analyzingAll] is set exactly while one
    is, and "Analyze All" is then disabled, so that invoking it changes
    nothing and starts no second sweep. *)
Theorem one_sweep_through_the_button (evs : list Event) :
  let st := run evs initial in
  (active_sweeps st <= 1)%nat
  /\ (analyzingAll st = true <-> active_sweeps st = 1%nat)
  /\ (active_sweeps st = 1%nat ->
      analyzeAll_button_enabled st = false /\ step ClickAnalyzeAll st = st).
Proof.
  intros st.
  assert (Inv : sweep_flag_agrees st).
  { apply run_keeps_flag. right. split; reflexivity. }
  split; [|split].
  - destruct Inv as [[_ H]|[_ H]]; rewrite H; lia.
  - destruct Inv as [[Ht H]|[Hf H]]; rewrite H; split; intros; congruence.
  - intros Hactive.
    assert (Ht : analyzingAll st = true).
    { destruct Inv as [[Ht _]|[_ H]]; [exact Ht | congruence]. }
    assert (Hoff : analyzeAll_button_enabled st = false).
    { unfold analyzeAll_button_enabled. rewrite Ht. apply andb_false_r. }
    split; [exact Hoff|]. simpl. rewrite Hoff. reflexivity.
Qed.

(** The guard is the button: [handleAnalyzeAll] does not read
    [analyzingAll].  Were it called while a sweep is parked on the first
    item, a second one would start and call the client for that item
    again; no session gets there. *)
Lemma handleAnalyzeAll_has_no_guard :
  analyzingAll sweep_started = true
  /\ active_sweeps sweep_started = 1%nat
  /\ active_sweeps (handleAnalyzeAll (images sweep_started) sweep_started) = 2%nat
  /\ log (handleAnalyzeAll (images sweep_started) sweep_started)
     = [Called 1000; Called 1000].
Proof. repeat split; reflexivity. Qed.

(** ** The sweep, left alone *)

Lemma settle_each_idle k outs st :
  nth_error (pending st) k = None -> settle_each k outs st = st.
Proof.
  intros Hk. unfold settle_each.
  induction outs as [|o outs IH]; simpl; [reflexivity|].
  rewrite Hk. exact IH.
Qed.

Lemma nth_error_last {A : Type} (l : list A) (x : A) :
  nth_error (l ++ [x]) (length l) = Some x.
Proof. induction l as [|y l IH]; simpl; [reflexivity | exact IH]. Qed.

Lemma remove_nth_last {A : Type} (l : list A) (x : A) :
  remove_nth (length l) (l ++ [x]) = l.
Proof. induction l as [|y l IH]; simpl; [reflexivity | rewrite IH; reflexivity]. Qed.

Lemma find_id_of_member image imgs :
  In image imgs ->
  exists found, find (fun img => Image.id img =? Image.id image) imgs = Some found.
Proof.
  intros Hin.
  destruct (find (fun img => Image.id img =? Image.id image) imgs) as [found|] eqn:Hf.
  - exists found. reflexivity.
  - exfalso. apply (find_none _ _ Hf) in Hin. rewrite Z.eqb_refl in Hin. discriminate.
Qed.

(** The loop over [rest], every item of which the closure's [imgs] knows,
    with the outcomes [outs] settling its parked call one after the other:
    the log it writes, and how it ends when every call got an outcome. *)
Lemma sweep_alone imgs rest : forall outs st,
  (forall image, In image rest -> In image imgs) ->
  let final := settle_each (length (pending st)) outs (analyzeAll_loop imgs rest st) in
  log final = log st ++ sweep_log rest outs
  /\ unhandled final = unhandled st
  /\ ((length rest <= length outs)%nat ->
      analyzingAll final = false /\ pending final = pending st).
Proof.
  induction rest as [|image rest IH]; intros outs st Hknown.
  - simpl.
    rewrite settle_each_idle
      by (apply nth_error_None; simpl; apply Nat.le_refl).
    simpl. rewrite app_nil_r. repeat split; reflexivity.
  - simpl. unfold handleAnalyzeImage.
    destruct (find_id_of_member image imgs (Hknown image (or_introl eq_refl)))
      as [found Hfound].
    rewrite Hfound.
    destruct outs as [|o outs].
    + simpl. split; [reflexivity|]. split; [reflexivity|].
      intros Hlen. simpl in Hlen. lia.
    + unfold settle_each. simpl.
      rewrite nth_error_last, remove_nth_last.
      unfold resume. simpl.
      set (r := analyzeImage (Image.id image) (fst o) (snd o)).
      set (st0 := add_log _ (set_pending _ _)).
      pose proof (settled_keeps_sweeps (Image.id image) r st0) as (Hc & _ & Hp & Hu).
      assert (Hlog : log (snd (handleAnalyzeImage_settled (Image.id image) r st0))
                     = log st0) by (destruct r; reflexivity).
      destruct (handleAnalyzeImage_settled (Image.id image) r st0) as [c st1].
      simpl in Hc, Hp, Hu, Hlog. subst c.
      assert (Hpend : pending st1 = pending st) by (rewrite Hp; reflexivity).
      specialize (IH outs st1 (fun x Hx => Hknown x (or_intror Hx))).
      unfold settle_each in IH. rewrite Hpend in IH.
      destruct IH as (IHlog & IHu & IHend).
      split; [|split].
      * rewrite IHlog, Hlog. subst st0. simpl.
        rewrite <- !app_assoc. reflexivity.
      * rewrite IHu, Hu. reflexivity.
      * intros Hlen. simpl in Hlen. apply IHend. lia.
Qed.

Lemma calls_of_app l1 l2 : calls_of (l1 ++ l2) = calls_of l1 ++ calls_of l2.
Proof. unfold calls_of. apply flat_map_app. Qed.

Lemma calls_of_sweep_log sel : forall outs,
  calls_of (sweep_log sel outs) = map Image.id (firstn (S (length outs)) sel).
Proof.
  induction sel as [|image sel IH]; intros outs; [reflexivity|].
  destruct outs as [|o outs]; simpl.
  - reflexivity.
  - rewrite IH. reflexivity.
Qed.

Lemma filter_known {A : Type} (f : A -> bool) (l : list A) :
  forall x, In x (List.filter f l) -> In x l.
Proof. intros x Hx. apply filter_In in Hx. tauto. Qed.

(** *** What the sweep has made of the store *)

Lemma map_id_started imageId l :
  map_id imageId with_analyzing_started l = map (started_image imageId) l.
Proof. reflexivity. Qed.

Lemma started_image_id imageId img : Image.id (started_image imageId img) = Image.id img.
Proof. unfold started_image. destruct (Image.id img =? imageId); reflexivity. Qed.

Lemma settled_image_id imageId r img : Image.id (settled_image imageId r img) = Image.id img.
Proof.
  unfold settled_image. destruct (Image.id img =? imageId); [|reflexivity].
  destruct r; reflexivity.
Qed.

Lemma sweep_image_id sel : forall outs img,
  Image.id (sweep_image sel outs img) = Image.id img.
Proof.
  induction sel as [|x sel IH]; intros outs img; [reflexivity|].
  destruct outs as [|o outs]; simpl; [apply started_image_id|].
  rewrite IH, settled_image_id, started_image_id. reflexivity.
Qed.

Lemma sweep_image_file sel : forall outs img,
  Image.file (sweep_image sel outs img) = Image.file img.
Proof.
  induction sel as [|x sel IH]; intros outs img; [reflexivity|].
  destruct outs as [|o outs]; simpl.
  - unfold started_image. destruct (Image.id img =? Image.id x); reflexivity.
  - rewrite IH. unfold settled_image, started_image.
    destruct (Image.id img =? Image.id x) eqn:E; simpl; rewrite ?E;
      [destruct (analyzeImage _ _ _)|]; reflexivity.
Qed.

Lemma attempt_elsewhere imageId r img :
  imageId <> Image.id img ->
  started_image imageId img = img /\ settled_image imageId r img = img.
Proof.
  intros N. unfold started_image, settled_image.
  destruct (Z.eqb_spec (Image.id img) imageId) as [E|_]; [congruence|].
  split; reflexivity.
Qed.

(** Whatever the outcome, the end of an attempt leaves the images of its
    id [Completed] or [Failed]. *)
Lemma attempt_ends_terminal imageId r img :
  Image.id img = imageId ->
  terminal (settled_image imageId r (started_image imageId img)).
Proof.
  intros E. unfold settled_image, started_image.
  rewrite (proj2 (Z.eqb_eq _ _) E). simpl. rewrite (proj2 (Z.eqb_eq _ _) E).
  unfold terminal, lifecycleState, Image.has_result, Image.has_error.
  destruct r as [res|err]; simpl; [left; reflexivity|].
  destruct (Image.result img); [left; reflexivity|].
  right. rewrite failure_message_nonempty. reflexivity.
Qed.

Lemma sweep_image_untouched sel : forall outs img,
  (forall image, In image (firstn (S (length outs)) sel) -> Image.id image <> Image.id img) ->
  sweep_image sel outs img = img.
Proof.
  induction sel as [|x sel IH]; intros outs img Hno; [reflexivity|].
  assert (Hx : Image.id x <> Image.id img) by (apply Hno; left; reflexivity).
  destruct outs as [|o outs]; simpl.
  - exact (proj1 (attempt_elsewhere _ (inr (Js.mkError "")) img Hx)).
  - destruct (attempt_elsewhere (Image.id x)
                (analyzeImage (Image.id x) (fst o) (snd o)) img Hx) as [-> ->].
    apply IH. intros image Hin. apply Hno. right. exact Hin.
Qed.

Lemma sweep_image_stays_terminal sel : forall outs img,
  terminal img ->
  (forall cur, nth_error sel (length outs) = Some cur -> Image.id cur <> Image.id img) ->
  terminal (sweep_image sel outs img).
Proof.
  induction sel as [|x sel IH]; intros outs img Hterm Hcur; [exact Hterm|].
  destruct outs as [|o outs]; simpl.
  - rewrite (proj1 (attempt_elsewhere _ (inr (Js.mkError "")) img
                      (Hcur x eq_refl))). exact Hterm.
  - apply IH.
    + destruct (Z.eq_dec (Image.id img) (Image.id x)) as [E|N].
      * apply attempt_ends_terminal. exact E.
      * destruct (attempt_elsewhere (Image.id x)
                    (analyzeImage (Image.id x) (fst o) (snd o)) img
                    (fun H => N (eq_sym H))) as [-> ->]. exact Hterm.
    + intros cur Hn. rewrite settled_image_id, started_image_id.
      apply Hcur. exact Hn.
Qed.

Lemma sweep_image_terminal sel : forall outs img,
  (exists image, In image (firstn (length outs) sel) /\ Image.id image = Image.id img) ->
  (forall cur, nth_error sel (length outs) = Some cur -> Image.id cur <> Image.id img) ->
  terminal (sweep_image sel outs img).
Proof.
  induction sel as [|x sel IH]; intros outs img (image & Hin & Hid) Hcur.
  - rewrite firstn_nil in Hin. contradiction.
  - destruct outs as [|o outs]; [contradiction|]. simpl.
    assert (Hcur' : forall cur, nth_error sel (length outs) = Some cur ->
                Image.id cur <> Image.id (settled_image (Image.id x)
                  (analyzeImage (Image.id x) (fst o) (snd o))
                  (started_image (Image.id x) img))).
    { intros cur Hn. rewrite settled_image_id, started_image_id. apply Hcur. exact Hn. }
    destruct (Z.eq_dec (Image.id img) (Image.id x)) as [E|N].
    + apply sweep_image_stays_terminal; [|exact Hcur'].
      apply attempt_ends_terminal. exact E.
    + apply IH; [|exact Hcur'].
      simpl in Hin. destruct Hin as [<-|Hin]; [congruence|].
      exists image. split; [exact Hin|].
      rewrite settled_image_id, started_image_id. exact Hid.
Qed.

Lemma sweep_image_current sel : forall outs img cur,
  nth_error sel (length outs) = Some cur -> Image.id cur = Image.id img ->
  Image.analyzing (sweep_image sel outs img) = true
  /\ Image.error (sweep_image sel outs img) = None.
Proof.
  induction sel as [|x sel IH]; intros outs img cur Hn Hid.
  - destruct outs; discriminate.
  - destruct outs as [|o outs]; simpl in *.
    + injection Hn as ->. unfold started_image.
      rewrite (proj2 (Z.eqb_eq _ _) (eq_sym Hid)). split; reflexivity.
    + apply (IH outs _ cur Hn).
      rewrite settled_image_id, started_image_id. exact Hid.
Qed.

Lemma find_the_item (cur : Image.t) (l : list Image.t) :
  NoDup (map Image.id l) -> In cur l ->
  find (fun img => Image.id img =? Image.id cur) l = Some cur.
Proof.
  induction l as [|img l IH]; intros Hnd Hin; [contradiction|]. simpl in *.
  apply NoDup_cons in Hnd. destruct Hnd as [Hnotin Hnd].
  destruct Hin as [->|Hin]; [rewrite Z.eqb_refl; reflexivity|].
  destruct (Z.eqb_spec (Image.id img) (Image.id cur)) as [E|_]; [|apply IH; assumption].
  exfalso. apply Hnotin. apply list_elem_of_In. rewrite E. apply in_map. exact Hin.
Qed.

(** The store and the parked call of the loop over [rest], left alone,
    after the outcomes [outs]. *)
Lemma sweep_alone_store imgs rest : forall outs st,
  (forall image, In image rest -> In image imgs) ->
  let final := settle_each (length (pending st)) outs (analyzeAll_loop imgs rest st) in
  images final = map (sweep_image rest outs) (images st)
  /\ match nth_error rest (length outs) with
     | Some cur =>
         exists found,
           find (fun img => Image.id img =? Image.id cur) imgs = Some found
           /\ pending final
              = pending st
                ++ [mkPending (Image.id cur) (Image.file found)
                      (FromAnalyzeAll imgs (skipn (S (length outs)) rest))]
     | None => pending final = pending st
     end.
Proof.
  induction rest as [|image rest IH]; intros outs st Hknown.
  - simpl.
    rewrite settle_each_idle by (apply nth_error_None; simpl; apply Nat.le_refl).
    simpl. split; [symmetry; apply List.map_id | destruct (length outs); reflexivity].
  - simpl. unfold handleAnalyzeImage.
    destruct (find_id_of_member image imgs (Hknown image (or_introl eq_refl)))
      as [found Hfound].
    rewrite Hfound.
    destruct outs as [|o outs].
    + simpl. split; [reflexivity|]. exists found. split; [exact Hfound | reflexivity].
    + unfold settle_each. simpl.
      rewrite nth_error_last, remove_nth_last.
      unfold resume. simpl.
      set (r := analyzeImage (Image.id image) (fst o) (snd o)).
      set (st0 := add_log _ (set_pending _ _)).
      pose proof (settled_keeps_sweeps (Image.id image) r st0) as (Hc & _ & Hp & _).
      assert (Himg : images (snd (handleAnalyzeImage_settled (Image.id image) r st0))
                     = map (fun img => settled_image (Image.id image) r
                                         (started_image (Image.id image) img))
                           (images st)).
      { destruct r as [res|err]; subst st0; simpl; unfold map_id; rewrite map_map;
          apply map_ext; intros img; unfold settled_image, started_image;
          destruct (Image.id img =? Image.id image) eqn:E; simpl; rewrite E;
          reflexivity. }
      destruct (handleAnalyzeImage_settled (Image.id image) r st0) as [c st1].
      simpl in Hc, Hp, Himg. subst c.
      assert (Hpend : pending st1 = pending st) by (rewrite Hp; reflexivity).
      specialize (IH outs st1 (fun x Hx => Hknown x (or_intror Hx))).
      unfold settle_each in IH. rewrite Hpend in IH.
      destruct IH as (IHimg & IHpend).
      split.
      * rewrite IHimg, Himg, map_map. reflexivity.
      * exact IHpend.
Qed.

(** C2: [handleAnalyzeAll] visits exactly the images without a result, in
    store order, one at a time.  Whatever the outcomes, after any number of
    them the client log is the calls of the selected items in order, each
    followed by its settlement before the next call: with [j] calls settled
    the client has been called for the first [j + 1] selected items and for
    no other, once each.  At that moment the one call parked by the sweep is
    the call for selected item [j], carrying the file of the first image of
    the store with its id (the item's own file when ids are distinct); in
    the store every image of an item whose call has settled is [Completed]
    or [Failed] (unless its id is the one being called), the images of the
    item being called are marked analyzing, and the images of the items not
    yet reached are as they were.  In every session, whatever else goes on,
    at most one call issued by a sweep is outstanding. *)
Theorem sweep_calls_one_by_one_in_store_order
    (st : State) (outs : list (FetchOutcome * float)) :
  let sel := List.filter (fun img => negb (Image.has_result img)) (images st) in
  let final := settle_each (length (pending st)) outs
                           (handleAnalyzeAll (images st) st) in
  log final = log st ++ sweep_log sel outs
  /\ calls_of (log final)
     = calls_of (log st) ++ map Image.id (firstn (S (length outs)) sel)
  /\ (forall evs, (length (List.filter is_sweep (pending (run evs initial))) <= 1)%nat)
  /\ match nth_error sel (length outs) with
     | Some cur =>
         exists found,
           find (fun img => Image.id img =? Image.id cur) (images st) = Some found
           /\ pending final
              = pending st
                ++ [mkPending (Image.id cur) (Image.file found)
                      (FromAnalyzeAll (images st) (skipn (S (length outs)) sel))]
           /\ (NoDup (map Image.id (images st)) -> found = cur)
     | None => pending final = pending st /\ analyzingAll final = false
     end
  /\ (forall i img,
        nth_error (images st) i = Some img ->
        exists b,
          nth_error (images final) i = Some b
          /\ Image.id b = Image.id img
          /\ Image.file b = Image.file img
          /\ ((exists image, In image (firstn (length outs) sel)
                             /\ Image.id image = Image.id img) ->
              (forall cur, nth_error sel (length outs) = Some cur ->
                           Image.id cur <> Image.id img) ->
              lifecycleState b = Completed \/ lifecycleState b = Failed)
          /\ (forall cur, nth_error sel (length outs) = Some cur ->
                          Image.id cur = Image.id img ->
                          Image.analyzing b = true /\ Image.error b = None)
          /\ ((forall image, In image (firstn (S (length outs)) sel) ->
                             Image.id image <> Image.id img) ->
              b = img)).
Proof.
  intros sel final.
  pose proof (sweep_alone (images st) sel outs (setAnalyzingAll true st)
                (filter_known _ _)) as (Hlog & _ & Hend).
  pose proof (sweep_alone_store (images st) sel outs (setAnalyzingAll true st)
                (filter_known _ _)) as (Himg & Hpend).
  change (settle_each _ outs _) with final in Hlog, Hend, Himg, Hpend.
  change (images (setAnalyzingAll true st)) with (images st) in Himg.
  change (pending (setAnalyzingAll true st)) with (pending st) in Hpend, Hend.
  split; [exact Hlog|]. split; [|split; [|split]].
  - rewrite Hlog, calls_of_app, calls_of_sweep_log. reflexivity.
  - intros evs.
    assert (Inv : sweep_flag_agrees (run evs initial)).
    { apply run_keeps_flag. right. split; reflexivity. }
    destruct Inv as [[_ H]|[_ H]]; unfold active_sweeps in H; rewrite H; lia.
  - destruct (nth_error sel (length outs)) as [cur|] eqn:Hcur.
    + destruct Hpend as (found & Hfound & Hp). exists found.
      split; [exact Hfound|]. split; [exact Hp|].
      intros Hnd. apply nth_error_In in Hcur. apply filter_known in Hcur.
      rewrite (find_the_item cur (images st) Hnd Hcur) in Hfound.
      injection Hfound as <-. reflexivity.
    + split; [exact Hpend|]. apply Hend.
      apply nth_error_None in Hcur. exact Hcur.
  - intros i img Hi. exists (sweep_image sel outs img).
    split; [rewrite Himg, nth_error_map, Hi; reflexivity|].
    split; [apply sweep_image_id|].
    split; [|split; [|split]].
    + apply sweep_image_file.
    + apply sweep_image_terminal.
    + intros cur Hn Hid. exact (sweep_image_current sel outs img cur Hn Hid).
    + apply sweep_image_untouched.
Qed.

(** C3: a failure does not stop [handleAnalyzeAll].  Whatever outcome each
    call gets, failures included, the sweep calls the client for every
    selected item, reaches its end ([analyzingAll] back to false, nothing of
    it left parked) and leaves no rejection unhandled. *)
Theorem sweep_goes_on_after_failures
    (st : State) (outcome : nat -> FetchOutcome * float) :
  let sel := List.filter (fun img => negb (Image.has_result img)) (images st) in
  let outs := map outcome (seq 0 (length sel)) in
  let final := settle_each (length (pending st)) outs
                           (handleAnalyzeAll (images st) st) in
  calls_of (log final) = calls_of (log st) ++ map Image.id sel
  /\ analyzingAll final = false
  /\ pending final = pending st
  /\ unhandled final = unhandled st
  /\ forall imageId r s, fst (handleAnalyzeImage_settled imageId r s) = Fulfilled.
Proof.
  intros sel outs final.
  pose proof (sweep_alone (images st) sel outs (setAnalyzingAll true st)
                (filter_known _ _)) as (Hlog & Hu & Hend).
  change (log final = log st ++ sweep_log sel outs) in Hlog.
  assert (Hlen : length outs = length sel).
  { unfold outs. rewrite length_map, length_seq. reflexivity. }
  split; [|split; [|split; [|split]]].
  - rewrite Hlog, calls_of_app, calls_of_sweep_log.
    rewrite firstn_all2 by lia. reflexivity.
  - apply Hend. lia.
  - apply Hend. lia.
  - exact Hu.
  - intros imageId r s. destruct r; reflexivity.
Qed.

(** ** Result and error on one item *)

Lemma map_id_Forall (P : Image.t -> Prop) imageId f l :
  (forall img, P img -> Image.id img = imageId -> P (f img)) ->
  Forall P l -> Forall P (map_id imageId f l).
Proof.
  intros Hf Hl. unfold map_id.
  induction Hl as [|img l Himg _ IH]; simpl; constructor; [|exact IH].
  destruct (Z.eqb_spec (Image.id img) imageId) as [E|_]; [apply Hf|]; assumption.
Qed.

Lemma map_index_Forall {A B : Type} (P : B -> Prop) (g : nat -> A -> B) l :
  (forall i x, P (g i x)) -> forall s, Forall P (map_index g s l).
Proof.
  intros Hg. induction l as [|x l IH]; intros s; simpl; constructor;
    [apply Hg | apply IH].
Qed.

Lemma interval_tick_Forall (P : Image.t -> Prop) imageId :
  (forall img, P img -> P (with_next_stage img)) ->
  forall l l', Forall P l -> interval_tick imageId l = Some l' -> Forall P l'.
Proof.
  intros Hnext. induction l as [|img l IH]; intros l' Hl Htick; simpl in Htick.
  - injection Htick as <-. constructor.
  - inversion Hl as [|? ? Himg Hrest]; subst.
    destruct (interval_tick imageId l) as [rest'|]; [|discriminate].
    specialize (IH rest' Hrest eq_refl).
    destruct (Image.id img =? imageId).
    + destruct (Image.result img) as [r|]; [|discriminate].
      destruct (Image.currentStage img <? _); injection Htick as <-;
        constructor; auto.
    + injection Htick as <-. constructor; assumption.
Qed.

(** A property of images that every updater of the component keeps is kept
    by every step of a session. *)
Section StorePredicate.
Variable P : Image.t -> Prop.
Hypothesis P_new : forall now i f, P (new_image now i f).
Hypothesis P_preview : forall url img, P img -> P (with_preview url img).
Hypothesis P_started : forall img, P img -> P (with_analyzing_started img).
Hypothesis P_result : forall r img, P img -> P (with_result r img).
Hypothesis P_done : forall img, P img -> P (with_analyzing_done img).
Hypothesis P_error : forall err img,
    P img -> P (with_error (Js.str_or (Js.message err) "Analysis failed") img).
Hypothesis P_stage : forall img, P img -> P (with_next_stage img).

Lemma handleAnalyzeImage_keeps_store imgs imageId c st :
  Forall P (images st) ->
  Forall P (images (snd (handleAnalyzeImage imgs imageId c st))).
Proof using P_started.
  intros H. unfold handleAnalyzeImage.
  destruct (find _ imgs); [|exact H].
  simpl. apply map_id_Forall; auto.
Qed.

Lemma analyzeAll_loop_keeps_store imgs rest : forall st,
  Forall P (images st) -> Forall P (images (analyzeAll_loop imgs rest st)).
Proof using P_started.
  induction rest as [|image rest IH]; intros st H; simpl; [exact H|].
  pose proof (handleAnalyzeImage_keeps_store imgs (Image.id image)
                (FromAnalyzeAll imgs rest) st H) as H1.
  destruct (handleAnalyzeImage imgs (Image.id image) (FromAnalyzeAll imgs rest) st)
    as [[|] st']; simpl in H1; [apply IH|]; exact H1.
Qed.

Lemma settled_keeps_store imageId r st :
  Forall P (images st) ->
  Forall P (images (snd (handleAnalyzeImage_settled imageId r st))).
Proof using P_result P_error.
  intros H. destruct r as [res|err]; simpl; apply map_id_Forall; auto.
Qed.

Lemma step_keeps_store ev st :
  Forall P (images st) -> Forall P (images (step ev st)).
Proof using All.
  intros H. destruct ev as [now files|k url|imageId| |imageId| |k out ms|k|imageId]; simpl.
  - destruct (0 <? length files)%nat; [|exact H]. simpl.
    apply Forall_app. split; [exact H|]. apply map_index_Forall. apply P_new.
  - destruct (nth_error (readers st) k); [|exact H]. simpl.
    apply map_id_Forall; auto.
  - destruct (analyze_button_shown imageId (images st)); [|exact H].
    apply handleAnalyzeImage_keeps_store. exact H.
  - destruct (analyzeAll_button_enabled st); [|exact H].
    apply analyzeAll_loop_keeps_store. exact H.
  - destruct (existsb _ (images st)); [|exact H]. simpl.
    apply List.Forall_forall. intros img Hin. apply filter_In in Hin.
    exact (proj1 (List.Forall_forall P (images st)) H img (proj1 Hin)).
  - destruct (0 <? length (images st))%nat; [|exact H]. constructor.
  - destruct (nth_error (pending st) k) as [p|]; [|exact H].
    unfold resume.
    set (st0 := add_log _ _).
    assert (H0 : Forall P (images st0)) by exact H.
    pose proof (settled_keeps_store (p_imageId p)
                  (analyzeImage (p_imageId p) out ms) st0 H0) as H1.
    pose proof (settled_keeps_sweeps (p_imageId p)
                  (analyzeImage (p_imageId p) out ms) st0) as (Hc & _).
    destruct (handleAnalyzeImage_settled _ _ st0) as [c st1].
    simpl in H1, Hc. subst c.
    destruct (p_caller p); [exact H1|].
    apply analyzeAll_loop_keeps_store. exact H1.
  - destruct (nth_error (timeouts st) k); [|exact H]. simpl.
    apply map_id_Forall; auto.
  - destruct (interval_tick imageId (images st)) as [imgs|] eqn:Ht; [|exact H].
    simpl. exact (interval_tick_Forall P imageId P_stage _ _ H Ht).
Qed.

Lemma run_keeps_store evs : forall st,
  Forall P (images st) -> Forall P (images (run evs st)).
Proof using All.
  induction evs as [|ev evs IH]; intros st H; simpl; [exact H|].
  apply IH. apply step_keeps_store. exact H.
Qed.
End StorePredicate.

(** No error in the store is the empty string. *)
Lemma errors_are_messages evs :
  Forall (fun img => Image.error img <> Some ""%string) (images (run evs initial)).
Proof.
  apply run_keeps_store; try (intros; simpl; assumption);
    try (intros; simpl; discriminate); try constructor.
  intros err img _. simpl. intros E. injection E as E.
  revert E. apply str_or_nonempty. discriminate.
Qed.

Lemma Forall_filter_keeps {A : Type} (P : A -> Prop) (f : A -> bool) (l : list A) :
  Forall P l -> Forall P (List.filter f l).
Proof.
  intros H. apply List.Forall_forall. intros x Hx. apply filter_In in Hx.
  exact (proj1 (List.Forall_forall P l) H x (proj1 Hx)).
Qed.

Lemma queued_has_neither (img : Image.t) :
  lifecycleState img = Queued ->
  Image.result img = None /\ Image.has_error img = false.
Proof.
  unfold lifecycleState, Image.has_result.
  destruct (Image.result img); [discriminate|].
  destruct (Image.analyzing img); [discriminate|].
  destruct (Image.has_error img); [discriminate|].
  split; reflexivity.
Qed.

(** C5, as the code has it.  From a store in which no item carries both a
    result and an error: ingestion, removal, reset, a preview load, the
    start of an analyze, the settle timer and a stage tick leave such a
    store; so does an analyze that was started and then succeeds with
    nothing in between; in general a success keeps it when the items with
    the id carry no error at that moment and a failure when they carry no
    result, neither write clearing the other field.  In every session an
    item that shows as [Queued] has neither. *)
Theorem exclusive_kept_except_across_attempts (st : State) :
  Forall exclusive (images st) ->
  (forall now files, Forall exclusive (images (handleFiles now files st)))
  /\ (forall imageId, Forall exclusive (images (handleRemoveImage imageId st)))
  /\ Forall exclusive (images (handleReset st))
  /\ (forall imageId url, Forall exclusive (images (reader_onload imageId url st)))
  /\ (forall imgs imageId c,
        Forall exclusive (images (snd (handleAnalyzeImage imgs imageId c st))))
  /\ (forall imageId, Forall exclusive (images (timeout_fires imageId st)))
  /\ (forall imageId imgs',
        interval_tick imageId (images st) = Some imgs' -> Forall exclusive imgs')
  /\ (forall imageId r,
        (forall img, In img (images st) ->
                     Image.id img = imageId -> Image.error img = None) ->
        Forall exclusive
          (images (snd (handleAnalyzeImage_settled imageId (inl r) st))))
  /\ (forall imageId err,
        (forall img, In img (images st) ->
                     Image.id img = imageId -> Image.result img = None) ->
        Forall exclusive
          (images (snd (handleAnalyzeImage_settled imageId (inr err) st))))
  /\ (forall imgs imageId c r,
        fst (handleAnalyzeImage imgs imageId c st) = Suspended ->
        Forall exclusive
          (images (snd (handleAnalyzeImage_settled imageId (inl r)
                          (snd (handleAnalyzeImage imgs imageId c st))))))
  /\ (forall evs img,
        In img (images (run evs initial)) -> lifecycleState img = Queued ->
        Image.result img = None /\ Image.error img = None).
Proof.
  intros Hex.
  assert (Hin : forall img, In img (images st) -> exclusive img).
  { apply List.Forall_forall. exact Hex. }
  repeat apply conj.
  - intros now files. simpl. apply Forall_app. split; [exact Hex|].
    apply map_index_Forall. intros i f. right. reflexivity.
  - intros imageId. simpl. apply Forall_filter_keeps. exact Hex.
  - constructor.
  - intros imageId url. simpl. apply map_id_Forall; [|exact Hex].
    intros img H _. exact H.
  - intros imgs imageId c. unfold handleAnalyzeImage.
    destruct (find _ imgs); [|exact Hex]. simpl.
    apply map_id_Forall; [|exact Hex]. intros img _ _. right. reflexivity.
  - intros imageId. simpl. apply map_id_Forall; [|exact Hex].
    intros img H _. exact H.
  - intros imageId imgs'. apply interval_tick_Forall; [|exact Hex].
    intros img H. exact H.
  - intros imageId r Hnoerr. simpl. unfold map_id.
    apply List.Forall_forall. intros img' Hin'. apply in_map_iff in Hin'.
    destruct Hin' as (img & <- & Himg).
    destruct (Z.eqb_spec (Image.id img) imageId) as [E|_]; [|apply Hin; exact Himg].
    right. simpl. apply Hnoerr; assumption.
  - intros imageId err Hnores. simpl. unfold map_id.
    apply List.Forall_forall. intros img' Hin'. apply in_map_iff in Hin'.
    destruct Hin' as (img & <- & Himg).
    destruct (Z.eqb_spec (Image.id img) imageId) as [E|_]; [|apply Hin; exact Himg].
    left. simpl. apply Hnores; assumption.
  - intros imgs imageId c r. unfold handleAnalyzeImage.
    destruct (find _ imgs); [|discriminate]. intros _. simpl. unfold map_id.
    rewrite map_map. apply List.Forall_forall. intros img' Hin'.
    apply in_map_iff in Hin'. destruct Hin' as (img & <- & Himg).
    destruct (Z.eqb_spec (Image.id img) imageId) as [E|N]; simpl.
    + rewrite (proj2 (Z.eqb_eq _ _) E). right. reflexivity.
    + rewrite (proj2 (Z.eqb_neq _ _) N). apply Hin. exact Himg.
  - intros evs img Himg Hq.
    destruct (queued_has_neither img Hq) as [Hres Herr]. split; [exact Hres|].
    pose proof (proj1 (List.Forall_forall _ _) (errors_are_messages evs) img Himg) as Hmsg.
    simpl in Hmsg.
    unfold Image.has_error in Herr.
    destruct (Image.error img) as [s|]; [|reflexivity].
    apply negb_false_iff, String.eqb_eq in Herr. subst s.
    exfalso. apply Hmsg. reflexivity.
Qed.

Lemma exclusive_kept_except_across_attempts_witness :
  Forall exclusive (images two_queued)
  /\ Forall exclusive (images (handleRemoveImage 1000 two_queued)).
Proof.
  assert (H : Forall exclusive (images two_queued)).
  { repeat constructor. }
  split; [exact H|].
  exact (proj1 (proj2 (exclusive_kept_except_across_attempts two_queued H)) 1000).
Defined.

(** C5 as stated fails: in a session in which the sweep reaches an item
    that a click analyzed meanwhile, and the sweep's call for it fails, the
    item ends with its result and the error of the later call. *)
Lemma result_and_error_both_set :
  map (fun img => (Image.has_result img, Image.error img))
      (images second_analyzed_twice)
  = [(true, None); (true, Some "boom"%string)]
  /\ ~ Forall exclusive (images second_analyzed_twice).
Proof.
  split; [reflexivity|].
  intros H. inversion H as [|? ? _ H1]; subst.
  inversion H1 as [|? ? Hex _]; subst.
  destruct Hex as [E|E]; discriminate E.
Qed.

(** ** Ingestion *)

Lemma map_index_length {A B : Type} (g : nat -> A -> B) l :
  forall s, length (map_index g s l) = length l.
Proof. induction l as [|x l IH]; intros s; simpl; [|rewrite IH]; reflexivity. Qed.

Lemma newImages_files now files : forall s,
  map Image.file (map_index (new_image now) s files) = files.
Proof. induction files as [|f fs IH]; intros s; simpl; [|rewrite IH]; reflexivity. Qed.

Lemma ingest_images calls : forall st,
  images (ingest calls st)
  = images st ++ concat (map (fun c => newImages (fst c) (snd c)) calls).
Proof.
  induction calls as [|c calls IH]; intros st; simpl.
  - rewrite app_nil_r. reflexivity.
  - unfold ingest in IH. rewrite IH. simpl. rewrite <- app_assoc. reflexivity.
Qed.

(** The ids one call generates from index [s] on. *)
Lemma new_ids_in now files : forall s x,
  In x (map Image.id (map_index (new_image now) s files)) ->
  exists j, (j < length files)%nat /\ x = now (s + j)%nat + Z.of_nat (s + j).
Proof.
  induction files as [|f fs IH]; intros s x Hx; simpl in Hx; [contradiction|].
  destruct Hx as [<-|Hx].
  - exists 0%nat. rewrite Nat.add_0_r. split; [simpl; lia | reflexivity].
  - destruct (IH (S s) x Hx) as (j & Hj & ->).
    exists (S j). replace (s + S j)%nat with (S s + j)%nat by lia.
    split; [simpl; lia | reflexivity].
Qed.

Lemma new_ids_nodup now files :
  (forall i j : nat, (i <= j)%nat -> now i <= now j) ->
  forall s, NoDup (map Image.id (map_index (new_image now) s files)).
Proof.
  intros Hmono. induction files as [|f fs IH]; intros s; simpl; constructor.
  - intros Hin. apply list_elem_of_In in Hin.
    destruct (new_ids_in now fs (S s) _ Hin) as (j & _ & E).
    pose proof (Hmono s (S s + j)%nat ltac:(lia)). lia.
  - apply IH.
Qed.

Lemma ingest_nodup calls : forall bound l,
  Forall (fun img => Image.id img < bound) l ->
  NoDup (map Image.id l) ->
  clocks_apart bound calls ->
  NoDup (map Image.id (l ++ concat (map (fun c => newImages (fst c) (snd c)) calls))).
Proof.
  induction calls as [|[now files] calls IH]; intros bound l Hlt Hnd Hclk; simpl.
  - rewrite app_nil_r. exact Hnd.
  - simpl in Hclk. destruct Hclk as (Hstart & Hmono & Hrest).
    rewrite app_assoc.
    apply (IH (now (length files - 1)%nat + Z.of_nat (length files))); [| |exact Hrest].
    + apply Forall_app. split.
      * apply List.Forall_forall. intros img Hin.
        pose proof (proj1 (List.Forall_forall _ _) Hlt img Hin) as Hb. simpl in Hb.
        pose proof (Hmono 0%nat (length files - 1)%nat ltac:(lia)). lia.
      * apply List.Forall_forall. intros img Hin.
        destruct (new_ids_in now files 0%nat (Image.id img) (in_map _ _ _ Hin))
          as (j & Hj & ->). simpl.
        pose proof (Hmono j (length files - 1)%nat ltac:(lia)). lia.
    + rewrite map_app. apply NoDup_app. split; [exact Hnd|]. split.
      * intros x Hold Hnew. apply list_elem_of_In in Hold, Hnew.
        apply in_map_iff in Hold. destruct Hold as (img & <- & Himg).
        pose proof (proj1 (List.Forall_forall _ _) Hlt img Himg) as Hb. simpl in Hb.
        destruct (new_ids_in now files 0%nat _ Hnew) as (j & _ & E). simpl in E.
        pose proof (Hmono 0%nat j ltac:(lia)). lia.
      * apply new_ids_nodup. exact Hmono.
Qed.

Lemma new_images_total k calls :
  Forall (fun c : (nat -> Z) * list File => length (snd c) = k) calls ->
  length (concat (map (fun c => newImages (fst c) (snd c)) calls))
  = (k * length calls)%nat.
Proof.
  induction 1 as [|c calls Hc _ IH]; simpl; [lia|].
  rewrite length_app, IH. unfold newImages. rewrite map_index_length, Hc. lia.
Qed.

(** C8, as the code has it: [N] calls of [handleFiles] with [k] files each
    append [k] items per call, [k * N] in all, in submission order and
    [Queued]; the ids, [Date.now() + index], are pairwise distinct when the
    clock never decreases within a call and each call starts at a reading
    that is at least the last reading of the call before plus its number of
    files (and above the ids already stored). *)
Theorem handleFiles_appends_k_per_call
    (k : nat) (calls : list ((nat -> Z) * list File)) (st : State) :
  Forall (fun c => length (snd c) = k) calls ->
  exists added,
    images (ingest calls st) = images st ++ added
    /\ length (images (ingest calls st))
       = (length (images st) + k * length calls)%nat
    /\ map Image.file added = concat (map snd calls)
    /\ Forall (fun img => lifecycleState img = Queued
                          /\ Image.analyzing img = false
                          /\ Image.result img = None
                          /\ Image.error img = None) added
    /\ (forall bound,
          Forall (fun img => Image.id img < bound) (images st) ->
          NoDup (map Image.id (images st)) ->
          clocks_apart bound calls ->
          NoDup (map Image.id (images (ingest calls st)))).
Proof.
  intros Hk.
  exists (concat (map (fun c => newImages (fst c) (snd c)) calls)).
  split; [apply ingest_images|]. split; [|split; [|split]].
  - rewrite ingest_images, length_app, (new_images_total k calls Hk). reflexivity.
  - clear Hk. induction calls as [|c calls IH]; simpl; [reflexivity|].
    rewrite map_app, IH. unfold newImages. rewrite newImages_files. reflexivity.
  - clear Hk. induction calls as [|c calls IH]; simpl; [constructor|].
    apply Forall_app. split; [|exact IH].
    apply map_index_Forall. intros i f. repeat split.
  - intros bound Hlt Hnd Hclk. rewrite ingest_images.
    apply (ingest_nodup calls bound); assumption.
Qed.

Lemma handleFiles_appends_k_per_call_witness :
  Forall (fun c : (nat -> Z) * list File => length (snd c) = 1%nat)
         [((fun _ => 1000), [fileA]); ((fun _ => 1000), [fileB])]
  /\ length (images same_instant) = (0 + 1 * 2)%nat.
Proof.
  assert (H : Forall (fun c : (nat -> Z) * list File => length (snd c) = 1%nat)
                     [((fun _ => 1000), [fileA]); ((fun _ => 1000), [fileB])]).
  { repeat constructor. }
  split; [exact H|].
  destruct (handleFiles_appends_k_per_call 1 _ initial H) as (added & _ & Hlen & _).
  exact Hlen.
Defined.

(** C8 as stated fails on the ids: two calls of one file each within the
    same millisecond give both items the same id. *)
Lemma same_instant_ids_collide :
  map Image.id (images same_instant) = [1000; 1000]
  /\ ~ NoDup (map Image.id (images same_instant)).
Proof.
  split; [reflexivity|].
  intros H. inversion H as [|? ? Hnotin _]; subst.
  apply Hnotin. apply list_elem_of_In. left. reflexivity.
Qed.

(** ** Statistics *)

Lemma Set_has (x : string) (s : list string) :
  existsb (String.eqb x) s = true <-> x ∈ s.
Proof.
  rewrite existsb_exists, list_elem_of_In. split.
  - intros (y & Hy & E). apply String.eqb_eq in E. subst y. exact Hy.
  - intros Hx. exists x. split; [exact Hx | apply String.eqb_refl].
Qed.

Lemma Set_add_spec (x : string) (s : list string) :
  NoDup s ->
  NoDup (Set_add x s) /\ (forall y, y ∈ Set_add x s <-> y ∈ s \/ y = x).
Proof.
  intros Hs. unfold Set_add.
  destruct (existsb (String.eqb x) s) eqn:Hx.
  - apply Set_has in Hx. split; [exact Hs|].
    intros y. split; [tauto | intros [H| ->]; assumption].
  - assert (Hnot : x ∉ s).
    { intros Hin. apply Set_has in Hin. congruence. }
    split.
    + apply NoDup_app. split; [exact Hs|]. split; [|apply NoDup_singleton].
      intros y Hy Hy'. apply list_elem_of_singleton in Hy'. subst y. contradiction.
    + intros y. rewrite elem_of_app, list_elem_of_singleton. reflexivity.
Qed.

Lemma new_Set_spec (l : list string) : forall acc,
  NoDup acc ->
  NoDup (fold_left (fun s x => Set_add x s) l acc)
  /\ (forall y, y ∈ fold_left (fun s x => Set_add x s) l acc <-> y ∈ acc \/ y ∈ l).
Proof.
  induction l as [|x l IH]; intros acc Hacc; simpl.
  - split; [exact Hacc|]. intros y. rewrite elem_of_nil. tauto.
  - destruct (Set_add_spec x acc Hacc) as [Hnd Hel].
    destruct (IH (Set_add x acc) Hnd) as [Hnd' Hel'].
    split; [exact Hnd'|]. intros y. rewrite Hel', Hel, elem_of_cons. tauto.
Qed.

(** The size of the JavaScript [Set] built from a list is the cardinality
    of the set of its elements. *)
Lemma new_Set_size (l : list string) :
  length (new_Set l) = size (list_to_set l : gset string).
Proof.
  destruct (new_Set_spec l [] (NoDup_nil_2)) as [Hnd Hel].
  fold (new_Set l) in Hnd, Hel.
  rewrite <- (size_list_to_set (C := gset string) (new_Set l) Hnd).
  f_equal. apply set_eq. intros y.
  rewrite !elem_of_list_to_set, Hel, elem_of_nil. tauto.
Qed.

Lemma completed_iff_result (img : Image.t) :
  Image.has_result img = bool_decide (lifecycleState img = Completed).
Proof.
  unfold lifecycleState.
  destruct (Image.has_result img); [reflexivity|].
  destruct (Image.analyzing img); [reflexivity|].
  destruct (Image.has_error img); reflexivity.
Qed.

Lemma results_of_analyzed_length (l : list Image.t) :
  length (results_of (List.filter Image.has_result l))
  = length (List.filter Image.has_result l).
Proof.
  induction l as [|img l IH]; [reflexivity|].
  simpl. destruct (Image.has_result img) eqn:Hres; [|exact IH].
  unfold Image.has_result in Hres. simpl.
  destruct (Image.result img); [|discriminate].
  rewrite length_app, IH. reflexivity.
Qed.

Lemma nearest_integer_halfway (a k : Z) :
  0 < k ->
  2 * Z.abs ((2 * a + 2 ^ k) / 2 ^ (k + 1) * 2 ^ k - a) <= 2 ^ k.
Proof.
  intros Hk.
  assert (Hpos : 0 < 2 ^ k) by (apply Z.pow_pos_nonneg; lia).
  replace (2 ^ (k + 1)) with (2 * 2 ^ k)
    by (rewrite Z.pow_add_r by lia; rewrite Z.pow_1_r; ring).
  pose proof (Z.div_mod (2 * a + 2 ^ k) (2 * 2 ^ k) ltac:(lia)) as Hdm.
  pose proof (Z.mod_pos_bound (2 * a + 2 ^ k) (2 * 2 ^ k) ltac:(lia)) as Hm.
  set (q := (2 * a + 2 ^ k) / (2 * 2 ^ k)) in *.
  set (r := (2 * a + 2 ^ k) mod (2 * 2 ^ k)) in *.
  apply Z.abs_case; [intros ? ? ->; tauto | nia | nia].
Qed.

(** [toFixed(1)] rounds to a nearest decimal with one fraction digit. *)
Lemma toFixed_1_nearest (x : float) neg n f :
  Js.toFixed x 1 = Js.Fixed neg n f -> f = 1 /\ nearest_tenth x n.
Proof.
  unfold Js.toFixed, nearest_tenth.
  destruct (Prim2SF x) as [s|s| |s m e]; try discriminate.
  - intros E. injection E as _ <- <-. split; reflexivity.
  - destruct (Js.scaled_geb (Z.pos m) e (10 ^ 21)); [discriminate|].
    intros E. injection E as _ <- <-. split; [reflexivity|].
    unfold Js.nearest_integer. rewrite Z.pow_1_r.
    destruct (Z.leb_spec 0 e) as [Hle|Hlt]; [ring|].
    replace (10 * Z.pos m) with (Z.pos m * 10) by ring.
    apply nearest_integer_halfway. lia.
Qed.

(** C9: [getOverallStats] over any store: [total] is the item count,
    [analyzed] the count of items that show as [Completed], [uniqueBreeds]
    the cardinality of the set of their breeds, and [avgConfidence] the number
    [0] when none is analyzed and otherwise the mean of their confidences
    (binary64 sum from [0] in store order, divided by the count) through
    [toFixed(1)], which, when it prints a decimal, is one nearest to the mean
    with one fraction digit.  Confidences ["90.0"] and ["80.0"] with breeds
    Gir and Sahiwal give ["85.0"] and 2. *)
Theorem getOverallStats_counts_and_mean (imgs : list Image.t) :
  let stats := getOverallStats imgs in
  let completed :=
    List.filter (fun img => bool_decide (lifecycleState img = Completed)) imgs in
  let rs := results_of completed in
  total stats = length imgs
  /\ analyzed stats = length completed
  /\ length rs = length completed
  /\ uniqueBreeds stats = size (list_to_set (map Result.breed rs) : gset string)
  /\ avgConfidence stats
     = (if decide (analyzed stats = 0%nat) then AvgNumber 0%float
        else AvgString (Js.toFixed (mean_confidence rs) 1))
  /\ (forall neg n f,
        avgConfidence stats = AvgString (Js.Fixed neg n f) ->
        f = 1 /\ nearest_tenth (mean_confidence rs) n)
  /\ map (fun img => option_map Result.confidence (Image.result img))
         (images two_completed)
     = [Some (Js.Fixed false 900 1); Some (Js.Fixed false 800 1)]
  /\ getOverallStats (images two_completed)
     = mkStats 2 2 2 (AvgString (Js.Fixed false 850 1)).
Proof.
  intros stats completed rs.
  assert (Hsame : List.filter Image.has_result imgs = completed).
  { apply filter_ext. intros img. apply completed_iff_result. }
  assert (Hrs : length rs = length completed).
  { unfold rs. rewrite <- Hsame. apply results_of_analyzed_length. }
  assert (Havg : avgConfidence stats
     = (if decide (analyzed stats = 0%nat) then AvgNumber 0%float
        else AvgString (Js.toFixed (mean_confidence rs) 1))).
  { unfold stats, getOverallStats. simpl. rewrite Hsame. fold rs.
    unfold mean_confidence. rewrite Hrs.
    destruct (length completed); reflexivity. }
  split; [reflexivity|].
  split; [unfold stats, getOverallStats; simpl; rewrite Hsame; reflexivity|].
  split; [exact Hrs|].
  split; [unfold stats, getOverallStats; simpl; rewrite Hsame; apply new_Set_size|].
  split; [exact Havg|].
  split; [|split; vm_compute; reflexivity].
  intros neg n f. rewrite Havg.
  destruct (decide (analyzed stats = 0%nat)); [discriminate|].
  intros E. injection E as E. exact (toFixed_1_nearest _ _ _ _ E).
Qed.

(** * Properties of the remaining code *)

(** ** Removal *)

Lemma filter_split_length {A : Type} (f : A -> bool) (l : list A) :
  length l = (length (List.filter (fun x => negb (f x)) l) + length (List.filter f l))%nat.
Proof.
  induction l as [|x l IH]; simpl; [reflexivity|].
  destruct (f x); simpl; lia.
Qed.

Lemma filter_all {A : Type} (f : A -> bool) (l : list A) :
  (forall x, In x l -> f x = true) -> List.filter f l = l.
Proof.
  induction l as [|x l IH]; intros H; simpl; [reflexivity|].
  rewrite (H x (or_introl eq_refl)), IH; [reflexivity|].
  intros y Hy. apply H. right. exact Hy.
Qed.

Lemma with_id_of_unique imageId (l : list Image.t) :
  NoDup (map Image.id l) -> In imageId (map Image.id l) ->
  length (with_id imageId l) = 1%nat.
Proof.
  unfold with_id. induction l as [|img l IH]; intros Hnd Hin; simpl in *; [contradiction|].
  apply NoDup_cons in Hnd. destruct Hnd as [Hnotin Hnd].
  destruct (Z.eqb_spec (Image.id img) imageId) as [E|N]; simpl.
  - f_equal. apply length_zero_iff_nil.
    destruct (List.filter _ l) as [|x xs] eqn:Hf; [reflexivity|].
    exfalso. assert (Hx : In x (List.filter (fun i => Image.id i =? imageId) l))
      by (rewrite Hf; left; reflexivity).
    apply filter_In in Hx. destruct Hx as [Hx Hid]. apply Z.eqb_eq in Hid.
    apply Hnotin. apply list_elem_of_In. rewrite E, <- Hid. apply in_map. exact Hx.
  - apply IH; [exact Hnd|]. destruct Hin as [E|Hin]; [contradiction|exact Hin].
Qed.

(** X1: [handleRemoveImage] drops exactly the images that carry the id and
    touches nothing else of the state: the store shrinks by the number of
    such images, by one when ids are distinct and the id is there, and the
    state is unchanged when the id is not there. *)
Theorem handleRemoveImage_drops_the_id (st : State) (imageId : Z) :
  let st' := handleRemoveImage imageId st in
  (forall img, In img (images st') <-> In img (images st) /\ Image.id img <> imageId)
  /\ length (images st)
     = (length (images st') + length (with_id imageId (images st)))%nat
  /\ (NoDup (map Image.id (images st)) -> In imageId (map Image.id (images st)) ->
      S (length (images st')) = length (images st))
  /\ ((forall img, In img (images st) -> Image.id img <> imageId) -> st' = st)
  /\ pending st' = pending st /\ timeouts st' = timeouts st
  /\ analyzingAll st' = analyzingAll st /\ log st' = log st.
Proof.
  intros st'. split; [|split; [|split; [|split]]].
  - intros img. unfold st'. simpl. rewrite filter_In.
    destruct (Z.eqb_spec (Image.id img) imageId); simpl; split; intros [H1 H2];
      split; auto; try discriminate; contradiction.
  - unfold st'. simpl. apply filter_split_length.
  - intros Hnd Hin.
    pose proof (filter_split_length (fun img => Image.id img =? imageId) (images st)) as H.
    pose proof (with_id_of_unique imageId (images st) Hnd Hin) as H1.
    unfold with_id in H1. unfold st'. simpl. lia.
  - intros Hno. unfold st', handleRemoveImage, setImages.
    rewrite filter_all.
    + destruct st; reflexivity.
    + intros x Hx. apply negb_true_iff, Z.eqb_neq. apply Hno. exact Hx.
  - repeat split; reflexivity.
Qed.

(** ** Previews *)

Lemma map_id_Forall2 (R : Image.t -> Image.t -> Prop) imageId f l :
  (forall img, R img img) -> (forall img, Image.id img = imageId -> R img (f img)) ->
  Forall2 R l (map_id imageId f l).
Proof.
  intros Hrefl Hf. unfold map_id. induction l as [|img l IH]; simpl; constructor; [|exact IH].
  destruct (Z.eqb_spec (Image.id img) imageId) as [E|_]; [apply Hf; exact E | apply Hrefl].
Qed.

(** X2: a [FileReader] that finishes sets the preview of the images that
    carry its id and changes nothing else of any image; one that finishes
    after its item was removed leaves the store as it is. *)
Theorem reader_onload_sets_preview_only (st : State) (imageId : Z) (url : string) :
  Forall2 (fun a b => Image.id b = Image.id a
                      /\ Image.file b = Image.file a
                      /\ Image.analyzing b = Image.analyzing a
                      /\ Image.result b = Image.result a
                      /\ Image.currentStage b = Image.currentStage a
                      /\ Image.error b = Image.error a
                      /\ Image.preview b = (if Image.id a =? imageId then Some url
                                            else Image.preview a))
          (images st) (images (reader_onload imageId url st))
  /\ images (reader_onload imageId url (handleRemoveImage imageId st))
     = images (handleRemoveImage imageId st).
Proof.
  split.
  - simpl. unfold map_id. induction (images st) as [|img l IH]; simpl; constructor;
      [|exact IH].
    destruct (Image.id img =? imageId); simpl; repeat split; reflexivity.
  - simpl. apply map_id_absent. intros img. apply removed_id_absent.
Qed.

(** ** One attempt, start to end *)

(** X3: an attempt that [handleAnalyzeImage] started and that succeeds
    gives every image with the id the result, with no error and the first
    stage, so that it shows as [Completed] at once while still marked
    analyzing; one settle timer is scheduled, and when it fires only the
    analyzing mark is taken off.  Images with another id are untouched. *)
Theorem successful_analyze_completes
    (st st1 : State) (imgs : list Image.t) (imageId : Z) (c : Caller)
    (result : Result.t) :
  handleAnalyzeImage imgs imageId c st = (Suspended, st1) ->
  let st2 := snd (handleAnalyzeImage_settled imageId (inl result) st1) in
  let st3 := timeout_fires imageId st2 in
  timeouts st2 = timeouts st ++ [imageId]
  /\ Forall2 (fun a b =>
                if Image.id a =? imageId
                then b = Image.mk (Image.id a) (Image.file a) (Image.preview a)
                                  true (Some result) 0 None
                     /\ lifecycleState b = Completed
                else b = a)
             (images st) (images st2)
  /\ Forall2 (fun a b =>
                if Image.id a =? imageId
                then b = Image.mk (Image.id a) (Image.file a) (Image.preview a)
                                  false (Some result) 0 None
                else b = a)
             (images st) (images st3).
Proof.
  intros Hstart st2 st3. unfold handleAnalyzeImage in Hstart.
  destruct (find _ imgs) as [image|]; [|discriminate].
  injection Hstart as <-.
  split; [reflexivity|]. split.
  - subst st2. simpl. unfold map_id.
    induction (images st) as [|img l IH]; simpl; constructor; [|exact IH].
    destruct (Z.eqb_spec (Image.id img) imageId) as [E|N]; simpl.
    + rewrite (proj2 (Z.eqb_eq _ _) E). split; reflexivity.
    + rewrite (proj2 (Z.eqb_neq _ _) N). reflexivity.
  - subst st3 st2. simpl. unfold map_id.
    induction (images st) as [|img l IH]; simpl; constructor; [|exact IH].
    destruct (Z.eqb_spec (Image.id img) imageId) as [E|N]; simpl.
    + rewrite (proj2 (Z.eqb_eq _ _) E). simpl.
      rewrite (proj2 (Z.eqb_eq _ _) E). reflexivity.
    + rewrite (proj2 (Z.eqb_neq _ _) N). rewrite (proj2 (Z.eqb_neq _ _) N).
      reflexivity.
Qed.

Lemma successful_analyze_completes_witness :
  handleAnalyzeImage (images two_queued) 1000 FromClick two_queued
    = (Suspended, first_analyzing)
  /\ forall result,
       timeouts (snd (handleAnalyzeImage_settled 1000 (inl result) first_analyzing))
       = timeouts two_queued ++ [1000].
Proof.
  assert (H : handleAnalyzeImage (images two_queued) 1000 FromClick two_queued
              = (Suspended, first_analyzing)) by reflexivity.
  split; [exact H|]. intros result.
  exact (proj1 (successful_analyze_completes two_queued first_analyzing
                  (images two_queued) 1000 FromClick result H)).
Defined.

Lemma button_shown_for (img : Image.t) (l : list Image.t) :
  In img l -> Image.result img = None -> Image.analyzing img = false ->
  analyze_button_shown (Image.id img) l = true.
Proof.
  intros Hin Hres Han. unfold analyze_button_shown. apply existsb_exists.
  exists img. split; [exact Hin|].
  unfold Image.has_result. rewrite Z.eqb_refl, Hres, Han. reflexivity.
Qed.

(** X4: after a failed attempt on an id of which some image has no result,
    the analyze control of that id is rendered again, and a click on it is
    the retry: it parks and logs one new call for the id, and every image
    with the id has its error cleared and is marked analyzing. *)
Theorem failed_item_can_be_retried
    (st st1 : State) (imgs : list Image.t) (imageId : Z) (c : Caller)
    (err : Js.Error) (img : Image.t) :
  handleAnalyzeImage imgs imageId c st = (Suspended, st1) ->
  In img (images st) -> Image.id img = imageId -> Image.result img = None ->
  let st2 := snd (handleAnalyzeImage_settled imageId (inr err) st1) in
  let st3 := step (ClickAnalyze imageId) st2 in
  analyze_button_shown imageId (images st2) = true
  /\ log st3 = log st2 ++ [Called imageId]
  /\ length (pending st3) = S (length (pending st2))
  /\ Forall (fun b => Image.id b = imageId ->
                      Image.error b = None /\ Image.analyzing b = true)
            (images st3).
Proof.
  intros Hstart Hin Hid Hres st2 st3. unfold handleAnalyzeImage in Hstart.
  destruct (find _ imgs) as [image|]; [|discriminate].
  injection Hstart as <-.
  set (msg := Js.str_or (Js.message err) "Analysis failed") in *.
  set (img2 := with_error msg (with_analyzing_started img)).
  assert (Hin2 : In img2 (images st2)).
  { subst st2. simpl. unfold map_id. rewrite map_map. apply in_map_iff.
    exists img. split; [|exact Hin].
    rewrite (proj2 (Z.eqb_eq _ _) Hid). simpl.
    rewrite (proj2 (Z.eqb_eq _ _) Hid). reflexivity. }
  assert (Hshown : analyze_button_shown imageId (images st2) = true).
  { rewrite <- Hid.
    change (Image.id img) with (Image.id img2).
    apply button_shown_for; [exact Hin2 | exact Hres | reflexivity]. }
  split; [exact Hshown|].
  assert (Hfind : exists found,
             find (fun i => Image.id i =? imageId) (images st2) = Some found).
  { rewrite <- Hid. change (Image.id img) with (Image.id img2).
    apply find_id_of_member. exact Hin2. }
  destruct Hfind as [found Hfound].
  assert (Hstep : st3 = snd (handleAnalyzeImage (images st2) imageId FromClick st2)).
  { unfold st3, step. rewrite Hshown. reflexivity. }
  rewrite Hstep. unfold handleAnalyzeImage. rewrite Hfound.
  split; [reflexivity|]. split.
  - simpl. rewrite length_app. simpl. lia.
  - simpl. apply List.Forall_forall. intros b Hb. unfold map_id in Hb.
    apply in_map_iff in Hb. destruct Hb as (a & <- & _).
    destruct (Z.eqb_spec (Image.id a) imageId) as [E|N]; simpl.
    + intros _. split; reflexivity.
    + intros E. contradiction.
Qed.

Lemma failed_item_can_be_retried_witness :
  analyze_button_shown 1000
    (images (snd (handleAnalyzeImage_settled 1000 (inr (Js.mkError "boom"))
                    first_analyzing))) = true.
Proof.
  assert (H : handleAnalyzeImage (images two_queued) 1000 FromClick two_queued
              = (Suspended, first_analyzing)) by reflexivity.
  exact (proj1 (failed_item_can_be_retried two_queued first_analyzing
                  (images two_queued) 1000 FromClick (Js.mkError "boom")
                  (Image.mk 1000 fileA None false None 0 None)
                  H (or_introl eq_refl) eq_refl eq_refl)).
Defined.

(** ** A sweep with nothing to do *)

Lemma filter_none {A : Type} (f : A -> bool) (l : list A) :
  (forall x, In x l -> f x = false) -> List.filter f l = [].
Proof.
  induction l as [|x l IH]; intros H; simpl; [reflexivity|].
  rewrite (H x (or_introl eq_refl)). apply IH.
  intros y Hy. apply H. right. exact Hy.
Qed.

(** X5: when every image already has a result (the empty store included),
    "Analyze All" is disabled, and [handleAnalyzeAll] itself calls nothing
    and changes no image: it ends at once with [analyzingAll] false. *)
Theorem handleAnalyzeAll_with_nothing_left (st : State) :
  (forall img, In img (images st) -> Image.has_result img = true) ->
  analyzeAll_button_enabled st = false
  /\ step ClickAnalyzeAll st = st
  /\ handleAnalyzeAll (images st) st = setAnalyzingAll false st.
Proof.
  intros Hall.
  assert (Hoff : analyzeAll_button_enabled st = false).
  { unfold analyzeAll_button_enabled, getOverallStats. simpl.
    rewrite (filter_all Image.has_result (images st) Hall).
    rewrite Nat.eqb_refl, orb_true_r. apply andb_false_r. }
  split; [exact Hoff|]. split.
  - simpl. rewrite Hoff. reflexivity.
  - unfold handleAnalyzeAll. rewrite filter_none; [reflexivity|].
    intros x Hx. rewrite (Hall x Hx). reflexivity.
Qed.

Lemma handleAnalyzeAll_with_nothing_left_witness :
  (forall img, In img (images two_completed) -> Image.has_result img = true)
  /\ step ClickAnalyzeAll two_completed = two_completed.
Proof.
  assert (H : forall img, In img (images two_completed) -> Image.has_result img = true).
  { intros img [E|[E|[]]]; subst img; reflexivity. }
  split; [exact H|].
  exact (proj1 (proj2 (handleAnalyzeAll_with_nothing_left two_completed H))).
Defined.

(** ** What happens to the items *)

Lemma same_item_refl (a : Image.t) : same_item a a.
Proof. repeat split; auto. Qed.

Lemma same_item_trans (a b c : Image.t) : same_item a b -> same_item b c -> same_item a c.
Proof.
  intros (Hi & Hf & Hr) (Hi' & Hf' & Hr'). repeat split.
  - rewrite Hi'. exact Hi.
  - rewrite Hf'. exact Hf.
  - intros H. apply Hr', Hr, H.
Qed.

Lemma same_items_refl (l : list Image.t) : Forall2 same_item l l.
Proof. induction l; constructor; [apply same_item_refl | assumption]. Qed.

Lemma same_items_trans (l1 l2 l3 : list Image.t) :
  Forall2 same_item l1 l2 -> Forall2 same_item l2 l3 -> Forall2 same_item l1 l3.
Proof.
  intros H12. revert l3. induction H12 as [|a b l1 l2 Hab _ IH]; intros l3 H23.
  - inversion H23. constructor.
  - inversion H23 as [|? c ? l3' Hbc Hrest]; subst.
    constructor; [exact (same_item_trans a b c Hab Hbc) | apply IH; exact Hrest].
Qed.

Lemma map_id_same_items imageId f l :
  (forall img, same_item img (f img)) -> Forall2 same_item l (map_id imageId f l).
Proof.
  intros Hf. apply map_id_Forall2; [apply same_item_refl | intros img _; apply Hf].
Qed.

Lemma handleAnalyzeImage_same_items imgs imageId c st :
  Forall2 same_item (images st) (images (snd (handleAnalyzeImage imgs imageId c st))).
Proof.
  unfold handleAnalyzeImage. destruct (find _ imgs); [|apply same_items_refl].
  simpl. apply map_id_same_items. intros img. repeat split; auto.
Qed.

Lemma analyzeAll_loop_same_items imgs rest : forall st,
  Forall2 same_item (images st) (images (analyzeAll_loop imgs rest st)).
Proof.
  induction rest as [|image rest IH]; intros st; simpl; [apply same_items_refl|].
  pose proof (handleAnalyzeImage_same_items imgs (Image.id image)
                (FromAnalyzeAll imgs rest) st) as H.
  destruct (handleAnalyzeImage imgs (Image.id image) (FromAnalyzeAll imgs rest) st)
    as [[|] st']; simpl in H; [|exact H].
  exact (same_items_trans _ _ _ H (IH st')).
Qed.

Lemma settled_same_items imageId r st :
  Forall2 same_item (images st) (images (snd (handleAnalyzeImage_settled imageId r st))).
Proof.
  destruct r as [res|err]; simpl; apply map_id_same_items; intros img;
    repeat split; auto; discriminate.
Qed.

Lemma interval_tick_same_items imageId : forall l l',
  interval_tick imageId l = Some l' -> Forall2 same_item l l'.
Proof.
  induction l as [|img l IH]; intros l' H; simpl in H.
  - injection H as <-. constructor.
  - destruct (interval_tick imageId l) as [rest'|]; [|discriminate].
    specialize (IH rest' eq_refl).
    destruct (Image.id img =? imageId).
    + destruct (Image.result img) as [r|] eqn:Hr; [|discriminate].
      destruct (Image.currentStage img <? _); injection H as <-;
        constructor; try exact IH; [|apply same_item_refl].
      repeat split; auto.
    + injection H as <-. constructor; [apply same_item_refl | exact IH].
Qed.

Lemma resume_same_items p r st :
  Forall2 same_item (images st) (images (resume p r st)).
Proof.
  unfold resume. set (st0 := add_log _ st).
  pose proof (settled_same_items (p_imageId p) r st0) as H.
  pose proof (settled_keeps_sweeps (p_imageId p) r st0) as (Hc & _).
  destruct (handleAnalyzeImage_settled (p_imageId p) r st0) as [c st1].
  simpl in H, Hc. subst c. change (images st0) with (images st) in H.
  destruct (p_caller p) as [|imgs rest]; [exact H|].
  exact (same_items_trans _ _ _ H (analyzeAll_loop_same_items imgs rest st1)).
Qed.

Lemma step_on_items (ev : Event) (st : State) :
  match ev with
  | AddFiles now files => images (step ev st) = images st ++ newImages now files
  | ClickRemove imageId =>
      images (step ev st)
      = List.filter (fun img => negb (Image.id img =? imageId)) (images st)
  | ClickReset => images (step ev st) = []
  | _ => Forall2 same_item (images st) (images (step ev st))
  end.
Proof.
  destruct ev as [now files|k url|imageId| |imageId| |k out ms|k|imageId]; simpl.
  - destruct files as [|f fs]; simpl; [rewrite app_nil_r|]; reflexivity.
  - destruct (nth_error (readers st) k); [|apply same_items_refl]. simpl.
    apply map_id_same_items. intros img. repeat split; auto.
  - destruct (analyze_button_shown imageId (images st)); [|apply same_items_refl].
    apply handleAnalyzeImage_same_items.
  - destruct (analyzeAll_button_enabled st); [|apply same_items_refl].
    apply (analyzeAll_loop_same_items (images st) _ (setAnalyzingAll true st)).
  - destruct (existsb _ (images st)) eqn:Hex; [reflexivity|].
    symmetry. apply filter_all. intros x Hx.
    destruct (Image.id x =? imageId) eqn:E; [|reflexivity].
    exfalso. assert (Ht : existsb (fun image => Image.id image =? imageId) (images st) = true)
      by (apply existsb_exists; exists x; split; assumption).
    congruence.
  - destruct (images st) as [|img l] eqn:E; simpl; [exact E | reflexivity].
  - destruct (nth_error (pending st) k) as [p|]; [|apply same_items_refl].
    apply (resume_same_items p _ (set_pending _ st)).
  - destruct (nth_error (timeouts st) k); [|apply same_items_refl]. simpl.
    apply map_id_same_items. intros img. repeat split; auto.
  - destruct (interval_tick imageId (images st)) as [imgs|] eqn:Ht;
      [|apply same_items_refl].
    simpl. exact (interval_tick_same_items imageId _ _ Ht).
Qed.

(** X6: what each event can do to the list of items.  Ingestion appends
    the new images after the ones there; a removal keeps the others, in
    order; a reset empties the list; every other event (clicks on analyze
    and "Analyze All", settling calls, timers, preview loads, stage ticks)
    leaves the list as long as it was, each item with its id and its file,
    and with a result if it had one. *)
Theorem items_keep_their_identity (ev : Event) (st : State) :
  match ev with
  | AddFiles now files => images (step ev st) = images st ++ newImages now files
  | ClickRemove imageId =>
      images (step ev st)
      = List.filter (fun img => negb (Image.id img =? imageId)) (images st)
  | ClickReset => images (step ev st) = []
  | _ => Forall2 same_item (images st) (images (step ev st))
  end.
Proof. exact (step_on_items ev st). Qed.

Lemma step_without_ingestion_length ev st :
  is_ingestion ev = false ->
  (length (images (step ev st)) <= length (images st))%nat.
Proof.
  intros Hev. pose proof (step_on_items ev st) as H.
  destruct ev; try discriminate; try (apply Forall2_length in H; lia).
  - rewrite H. apply filter_length_le.
  - rewrite H. simpl. lia.
Qed.

(** X7: without a new ingestion the store never grows: no click, settling
    call, timer, preview load or stage tick brings an item (back) into it.
    In particular after [handleReset] the store stays empty whatever was
    still under way. *)
Theorem no_item_without_ingestion (evs : list Event) (st : State) :
  forallb (fun ev => negb (is_ingestion ev)) evs = true ->
  (length (images (run evs st)) <= length (images st))%nat
  /\ images (run evs (handleReset st)) = [].
Proof.
  intros Hevs.
  assert (Hlen : forall s, (length (images (run evs s)) <= length (images s))%nat).
  { revert Hevs. induction evs as [|ev evs IH]; intros Hevs s; [simpl; lia|].
    simpl in Hevs. apply andb_prop in Hevs. destruct Hevs as [Hev Hevs].
    apply negb_true_iff in Hev.
    pose proof (step_without_ingestion_length ev s Hev) as Hstep.
    specialize (IH Hevs (step ev s)).
    change (run (ev :: evs) s) with (run evs (step ev s)). lia. }
  split; [apply Hlen|].
  specialize (Hlen (handleReset st)). simpl in Hlen.
  apply length_zero_iff_nil. lia.
Qed.

Lemma no_item_without_ingestion_witness :
  forallb (fun ev => negb (is_ingestion ev))
          [FetchSettles 0 (responds "Gir" 90.0) 120; TimeoutFires 0] = true
  /\ images (run [FetchSettles 0 (responds "Gir" 90.0) 120; TimeoutFires 0]
                 (handleReset sweep_started)) = [].
Proof.
  assert (H : forallb (fun ev => negb (is_ingestion ev))
                [FetchSettles 0 (responds "Gir" 90.0) 120; TimeoutFires 0] = true)
    by reflexivity.
  split; [exact H|].
  exact (proj2 (no_item_without_ingestion _ sweep_started H)).
Defined.

Lemma same_items_ids (l l' : list Image.t) :
  Forall2 same_item l l' -> map Image.id l' = map Image.id l.
Proof.
  induction 1 as [|a b l l' (Hid & _) _ IH]; simpl; [reflexivity|].
  rewrite Hid, IH. reflexivity.
Qed.

Lemma filter_ids_NoDup (f : Image.t -> bool) (l : list Image.t) :
  NoDup (map Image.id l) -> NoDup (map Image.id (List.filter f l)).
Proof.
  induction l as [|img l IH]; simpl; intros Hnd; [constructor|].
  apply NoDup_cons in Hnd. destruct Hnd as [Hnotin Hnd].
  destruct (f img); simpl; [|apply IH; exact Hnd].
  apply NoDup_cons. split; [|apply IH; exact Hnd].
  intros Hin. apply Hnotin. apply list_elem_of_In in Hin. apply list_elem_of_In.
  apply in_map_iff in Hin. destruct Hin as (x & Hx & Hin).
  apply in_map_iff. exists x. split; [exact Hx|].
  apply filter_In in Hin. tauto.
Qed.

(** X18: only ingestion can make two items share an id: every other event
    takes a store with pairwise distinct ids to one with pairwise distinct
    ids. *)
Theorem distinct_ids_survive (ev : Event) (st : State) :
  is_ingestion ev = false ->
  NoDup (map Image.id (images st)) ->
  NoDup (map Image.id (images (step ev st))).
Proof.
  intros Hev Hnd. pose proof (step_on_items ev st) as H.
  destruct ev; try discriminate;
    try (rewrite (same_items_ids _ _ H); exact Hnd).
  - rewrite H. apply filter_ids_NoDup. exact Hnd.
  - rewrite H. constructor.
Qed.

Lemma distinct_ids_survive_witness :
  is_ingestion ClickAnalyzeAll = false
  /\ NoDup (map Image.id (images two_queued))
  /\ NoDup (map Image.id (images sweep_started)).
Proof.
  assert (H : NoDup (map Image.id (images two_queued))).
  { simpl. repeat constructor; rewrite ?list_elem_of_In; simpl; intuition lia. }
  split; [reflexivity|]. split; [exact H|].
  exact (distinct_ids_survive ClickAnalyzeAll two_queued eq_refl H).
Defined.

(** ** Invariants of every session *)

(** X8: in every session an image that is marked analyzing carries no
    error: the start of an attempt clears the error and a failure takes the
    mark off in the same update. *)
Theorem analyzing_items_carry_no_error (evs : list Event) :
  Forall (fun img => Image.analyzing img = true -> Image.error img = None)
         (images (run evs initial)).
Proof.
  apply run_keeps_store; try (intros; simpl in *; auto; fail);
    try (intros; simpl in *; discriminate); try constructor.
Qed.

(** ** The stage animation *)

Lemma interval_tick_keeps (P : Image.t -> Prop) imageId :
  (forall img r, P img -> Image.result img = Some r ->
                 Image.currentStage img < Z.of_nat (length (Result.detectionStages r)) - 1 ->
                 P (with_next_stage img)) ->
  forall l l', Forall P l -> interval_tick imageId l = Some l' -> Forall P l'.
Proof.
  intros Hnext. induction l as [|img l IH]; intros l' Hl Htick; simpl in Htick.
  - injection Htick as <-. constructor.
  - inversion Hl as [|? ? Himg Hrest]; subst.
    destruct (interval_tick imageId l) as [rest'|]; [|discriminate].
    specialize (IH rest' Hrest eq_refl).
    destruct (Image.id img =? imageId).
    + destruct (Image.result img) as [r|] eqn:Hr; [|discriminate].
      destruct (Z.ltb_spec (Image.currentStage img)
                  (Z.of_nat (length (Result.detectionStages r)) - 1));
        injection Htick as <-; constructor; auto.
      apply (Hnext img r); assumption.
    + injection Htick as <-. constructor; assumption.
Qed.

(** X9: a tick of the stage interval of an id throws exactly when an image
    with the id has no result; otherwise it moves each image with the id one
    stage on if it is below the last stage of its result and leaves it as it
    is if not, and touches no other image. *)
Theorem interval_tick_advances_to_the_last_stage (imageId : Z) (l : list Image.t) :
  (interval_tick imageId l = None
   <-> exists img, In img l /\ Image.id img = imageId /\ Image.result img = None)
  /\ forall l',
       interval_tick imageId l = Some l' ->
       Forall2 (fun a b =>
                  if Image.id a =? imageId then
                    exists r, Image.result a = Some r
                              /\ b = (if Image.currentStage a
                                         <? Z.of_nat (length (Result.detectionStages r)) - 1
                                      then with_next_stage a else a)
                  else b = a) l l'.
Proof.
  induction l as [|img l [IHnone IHsome]]; simpl.
  - split; [split; [discriminate | intros (x & [] & _)]|].
    intros l' H. injection H as <-. constructor.
  - destruct (interval_tick imageId l) as [rest'|] eqn:Hrest.
    + specialize (IHsome rest' eq_refl).
      assert (Hno : forall x, In x l -> Image.id x = imageId -> Image.result x <> None).
      { intros x Hx Hid Hres. destruct IHnone as [_ H].
        discriminate (H (ex_intro _ x (conj Hx (conj Hid Hres)))). }
      destruct (Z.eqb_spec (Image.id img) imageId) as [E|N].
      * destruct (Image.result img) as [r|] eqn:Hr.
        -- split.
           ++ split; [destruct (_ <? _); discriminate|].
              intros (x & [<-|Hx] & Hid & Hres); [congruence|].
              exfalso. exact (Hno x Hx Hid Hres).
           ++ intros l' H.
              destruct (Image.currentStage img <? _) eqn:Hlt; injection H as <-;
                constructor; try exact IHsome;
                rewrite (proj2 (Z.eqb_eq _ _) E); exists r; rewrite Hlt;
                (split; [exact Hr | reflexivity]).
        -- split; [|discriminate].
           split; [|reflexivity]. intros _. exists img. auto.
      * split.
        -- split; [discriminate|].
           intros (x & [<-|Hx] & Hid & Hres); [contradiction|].
           exfalso. exact (Hno x Hx Hid Hres).
        -- intros l' H. injection H as <-. constructor; [|exact IHsome].
           rewrite (proj2 (Z.eqb_neq _ _) N). reflexivity.
    + split; [|discriminate]. split; [|reflexivity]. intros _.
      destruct IHnone as [H _]. destruct (H eq_refl) as (x & Hx & Hid & Hres).
      exists x. auto.
Qed.

Lemma analyzeImage_has_four_stages imageId out ms r :
  analyzeImage imageId out ms = inl r ->
  length (Result.detectionStages r) = 4%nat /\ Result.id r = imageId.
Proof.
  unfold analyzeImage. destruct out as [err|ok status text json]; [discriminate|].
  destruct ok; simpl; [|discriminate].
  destruct json as [data|err]; [|discriminate].
  intros H. injection H as <-. split; reflexivity.
Qed.

Lemma stage_in_range_step ev st :
  Forall stage_in_range (images st) -> Forall stage_in_range (images (step ev st)).
Proof.
  assert (Hstarted : forall img, stage_in_range img ->
                                 stage_in_range (with_analyzing_started img)).
  { intros img [_ H]. unfold stage_in_range. simpl.
    split; [lia|]. destruct (Image.result img); [exact H | reflexivity]. }
  intros H. destruct ev as [now files|k url|imageId| |imageId| |k out ms|k|imageId]; simpl.
  - destruct (0 <? length files)%nat; [|exact H]. simpl.
    apply Forall_app. split; [exact H|]. apply map_index_Forall.
    intros i f. unfold stage_in_range. simpl. split; [lia | reflexivity].
  - destruct (nth_error (readers st) k); [|exact H]. simpl.
    apply map_id_Forall; [|exact H]. intros img Himg _. exact Himg.
  - destruct (analyze_button_shown imageId (images st)); [|exact H].
    apply handleAnalyzeImage_keeps_store; assumption.
  - destruct (analyzeAll_button_enabled st); [|exact H].
    apply analyzeAll_loop_keeps_store; assumption.
  - destruct (existsb _ (images st)); [|exact H]. simpl.
    apply Forall_filter_keeps. exact H.
  - destruct (0 <? length (images st))%nat; [|exact H]. constructor.
  - destruct (nth_error (pending st) k) as [p|]; [|exact H].
    unfold resume. set (st0 := add_log _ _).
    assert (H1 : Forall stage_in_range
                   (images (snd (handleAnalyzeImage_settled (p_imageId p)
                                   (analyzeImage (p_imageId p) out ms) st0)))).
    { destruct (analyzeImage (p_imageId p) out ms) as [r|err] eqn:Hr; simpl;
        (apply map_id_Forall; [|exact H]); intros img [Hrange Hres] _;
        unfold stage_in_range; simpl; (split; [exact Hrange|]).
      - exact (proj1 (analyzeImage_has_four_stages _ _ _ _ Hr)).
      - exact Hres. }
    pose proof (settled_keeps_sweeps (p_imageId p)
                  (analyzeImage (p_imageId p) out ms) st0) as (Hc & _).
    destruct (handleAnalyzeImage_settled _ _ st0) as [c st1].
    simpl in H1, Hc. subst c.
    destruct (p_caller p); [exact H1|].
    apply analyzeAll_loop_keeps_store; assumption.
  - destruct (nth_error (timeouts st) k); [|exact H]. simpl.
    apply map_id_Forall; [|exact H]. intros img Himg _. exact Himg.
  - destruct (interval_tick imageId (images st)) as [imgs|] eqn:Ht; [|exact H].
    simpl. apply (interval_tick_keeps stage_in_range imageId) with (l := images st);
      [|exact H|exact Ht].
    intros img r [Hrange Hres] Hr Hlt. rewrite Hr in Hres.
    unfold stage_in_range. simpl. rewrite Hr. split; [lia | exact Hres].
Qed.

(** X10: in every session the stage an image shows is between 0 and 3, a
    result in the store has its four stages, and an image without a result
    shows stage 0: the animation never runs past the last stage of a result
    that [analyzeImage] built. *)
Theorem stage_stays_in_range (evs : list Event) :
  Forall stage_in_range (images (run evs initial)).
Proof.
  assert (H : forall st, Forall stage_in_range (images st) ->
                         Forall stage_in_range (images (run evs st))).
  { induction evs as [|ev evs IH]; intros st Hst; [exact Hst|].
    change (run (ev :: evs) st) with (run evs (step ev st)).
    apply IH. apply stage_in_range_step. exact Hst. }
  apply H. constructor.
Qed.

(** ** A sweep in which every call succeeds *)

Lemma succeeds_fulfils imageId o :
  succeeds o = true -> exists r, analyzeImage imageId (fst o) (snd o) = inl r.
Proof.
  unfold succeeds, analyzeImage. destruct (fst o) as [err|ok status text json];
    [discriminate|].
  destruct ok; [|discriminate]. destruct json as [data|err]; [|discriminate].
  intros _. simpl. eexists. reflexivity.
Qed.

Lemma same_items_keep_results i (l l' : list Image.t) :
  Forall2 same_item l l' ->
  Forall (fun a => Image.id a = i -> Image.has_result a = true) l ->
  Forall (fun x => Image.id x = i -> Image.has_result x = true) l'.
Proof.
  induction 1 as [|a b l l' (Hid & _ & Hres) _ IH]; intros Hl; constructor;
    inversion Hl as [|? ? Ha Hrest]; subst.
  - intros Hb. rewrite Hid in Hb. specialize (Ha Hb).
    unfold Image.has_result in *.
    destruct (Image.result a); [|discriminate].
    destruct (Image.result b); [reflexivity|].
    exfalso. apply Hres; [discriminate | reflexivity].
  - apply IH. exact Hrest.
Qed.

Lemma sweep_all_succeed imgs rest : forall outs st,
  (forall image, In image rest -> In image imgs) ->
  forallb succeeds outs = true ->
  (length rest <= length outs)%nat ->
  let final := settle_each (length (pending st)) outs (analyzeAll_loop imgs rest st) in
  Forall2 same_item (images st) (images final)
  /\ forall image, In image rest ->
       Forall (fun x => Image.id x = Image.id image -> Image.has_result x = true)
              (images final).
Proof.
  induction rest as [|image rest IH]; intros outs st Hknown Hok Hlen.
  - simpl.
    rewrite settle_each_idle by (apply nth_error_None; simpl; apply Nat.le_refl).
    split; [apply same_items_refl | intros image []].
  - destruct outs as [|o outs]; [simpl in Hlen; lia|].
    simpl in Hok. apply andb_prop in Hok. destruct Hok as [Ho Hok].
    simpl. unfold handleAnalyzeImage.
    destruct (find_id_of_member image imgs (Hknown image (or_introl eq_refl)))
      as [found Hfound].
    rewrite Hfound. unfold settle_each. simpl.
    rewrite nth_error_last, remove_nth_last.
    unfold resume. simpl.
    destruct (succeeds_fulfils (Image.id image) o Ho) as [r Hr]. rewrite Hr. simpl.
    set (st1 := setTimeout _ _).
    assert (H01 : Forall2 same_item (images st) (images st1)).
    { subst st1. simpl.
      apply same_items_trans with (l2 := map_id (Image.id image) with_analyzing_started (images st));
        apply map_id_same_items; intros img; repeat split; auto; discriminate. }
    assert (Hhead : Forall (fun x => Image.id x = Image.id image ->
                                     Image.has_result x = true) (images st1)).
    { subst st1. simpl. apply List.Forall_forall. intros x Hx.
      unfold map_id in Hx. apply in_map_iff in Hx. destruct Hx as (y & <- & _).
      destruct (Z.eqb_spec (Image.id y) (Image.id image)) as [E|N];
        [reflexivity | intros E; contradiction]. }
    specialize (IH outs st1 (fun x Hx => Hknown x (or_intror Hx)) Hok
                  ltac:(simpl in Hlen; lia)).
    unfold settle_each in IH.
    change (length (pending st1)) with (length (pending st)) in IH.
    destruct IH as [H1f Hrest].
    split; [exact (same_items_trans _ _ _ H01 H1f)|].
    intros image' [<-|Hin'].
    + exact (same_items_keep_results _ _ _ H1f Hhead).
    + apply Hrest. exact Hin'.
Qed.

(** X12: when every call of a sweep succeeds, the sweep ends with a result
    on every image of the store: "Analyze All" then shows all analyzed
    ([analyzed] equals [total]) and is disabled, and [analyzingAll] is back
    to false.  No image is added or lost on the way. *)
Theorem sweep_that_succeeds_completes_everything
    (st : State) (outs : list (FetchOutcome * float)) :
  forallb succeeds outs = true ->
  (length (List.filter (fun img => negb (Image.has_result img)) (images st))
   <= length outs)%nat ->
  let final := settle_each (length (pending st)) outs
                           (handleAnalyzeAll (images st) st) in
  Forall (fun x => Image.has_result x = true) (images final)
  /\ length (images final) = length (images st)
  /\ analyzed (getOverallStats (images final)) = total (getOverallStats (images final))
  /\ analyzeAll_button_enabled final = false
  /\ analyzingAll final = false.
Proof.
  intros Hok Hlen final.
  set (sel := List.filter (fun img => negb (Image.has_result img)) (images st)) in *.
  pose proof (sweep_all_succeed (images st) sel outs (setAnalyzingAll true st)
                (filter_known _ _) Hok Hlen) as [Hsame Hsel].
  pose proof (sweep_alone (images st) sel outs (setAnalyzingAll true st)
                (filter_known _ _)) as (_ & _ & Hend).
  change (settle_each _ outs _) with final in Hsame, Hsel, Hend.
  change (images (setAnalyzingAll true st)) with (images st) in Hsame.
  assert (Hall : Forall (fun x => Image.has_result x = true) (images final)).
  { assert (Hpos : forall l l', Forall2 same_item l l' ->
               (forall a, In a l -> Image.has_result a = false ->
                          Forall (fun x => Image.id x = Image.id a ->
                                           Image.has_result x = true) (images final)) ->
               (forall x, In x l' -> In x (images final)) ->
               Forall (fun x => Image.has_result x = true) l').
    { induction 1 as [|a b l l' (Hid & _ & Hres) _ IH]; intros Hno Hsub; constructor.
      - destruct (Image.has_result a) eqn:Ha.
        + unfold Image.has_result in *.
          destruct (Image.result a); [|discriminate].
          destruct (Image.result b); [reflexivity|].
          exfalso. apply Hres; [discriminate | reflexivity].
        + pose proof (Hno a (or_introl eq_refl) Ha) as Hf.
          exact (proj1 (List.Forall_forall _ _) Hf b (Hsub b (or_introl eq_refl)) Hid).
      - apply IH.
        + intros a' Ha'. apply Hno. right. exact Ha'.
        + intros x Hx. apply Hsub. right. exact Hx. }
    apply (Hpos (images st) (images final) Hsame); [|auto].
    intros a Ha Hres. apply Hsel. unfold sel. apply filter_In.
    split; [exact Ha | rewrite Hres; reflexivity]. }
  assert (Hfilter : List.filter Image.has_result (images final) = images final).
  { apply filter_all. apply List.Forall_forall. exact Hall. }
  split; [exact Hall|].
  split; [pose proof Hsame as HL; apply Forall2_length in HL; symmetry; exact HL|].
  split; [simpl; rewrite Hfilter; reflexivity|].
  split; [|apply Hend; exact Hlen].
  unfold analyzeAll_button_enabled, getOverallStats. simpl. rewrite Hfilter.
  rewrite Nat.eqb_refl, orb_true_r. apply andb_false_r.
Qed.

Lemma sweep_that_succeeds_completes_everything_witness :
  forallb succeeds [(responds "Gir" 90.0, 120%float); (responds "Sahiwal" 80.0, 340%float)]
  = true
  /\ (length (List.filter (fun img => negb (Image.has_result img)) (images two_queued))
      <= 2)%nat
  /\ analyzingAll
       (settle_each 0 [(responds "Gir" 90.0, 120%float); (responds "Sahiwal" 80.0, 340%float)]
          (handleAnalyzeAll (images two_queued) two_queued)) = false.
Proof.
  assert (H1 : forallb succeeds
                 [(responds "Gir" 90.0, 120%float); (responds "Sahiwal" 80.0, 340%float)]
               = true) by reflexivity.
  assert (H2 : (length (List.filter (fun img => negb (Image.has_result img))
                          (images two_queued)) <= 2)%nat) by (simpl; lia).
  split; [exact H1|]. split; [exact H2|].
  exact (proj2 (proj2 (proj2 (proj2
           (sweep_that_succeeds_completes_everything two_queued _ H1 H2))))).
Defined.

(** ** More on the statistics *)

Lemma new_Set_grows (l : list string) : forall acc,
  (length acc <= length (fold_left (fun s x => Set_add x s) l acc))%nat
  /\ (length (fold_left (fun s x => Set_add x s) l acc) <= length acc + length l)%nat.
Proof.
  induction l as [|x l IH]; intros acc; simpl; [lia|].
  destruct (IH (Set_add x acc)) as [Hlo Hhi].
  assert (Hadd : (length acc <= length (Set_add x acc) <= S (length acc))%nat).
  { unfold Set_add. destruct (existsb _ acc); [lia|].
    rewrite length_app. simpl. lia. }
  lia.
Qed.

Lemma new_Set_nonempty (x : string) (l : list string) :
  (1 <= length (new_Set (x :: l)))%nat.
Proof.
  unfold new_Set. simpl.
  pose proof (proj1 (new_Set_grows l (Set_add x []))) as H.
  unfold Set_add in H at 1. simpl in H. exact H.
Qed.

(** X13: the numbers of [getOverallStats] are consistent on every store:
    [analyzed] is at most [total], [uniqueBreeds] at most [analyzed] and zero
    only when nothing is analyzed, and [avgConfidence] is the number [0]
    exactly when nothing is analyzed (a [toFixed] string otherwise). *)
Theorem getOverallStats_is_consistent (imgs : list Image.t) :
  let stats := getOverallStats imgs in
  (analyzed stats <= total stats)%nat
  /\ (uniqueBreeds stats <= analyzed stats)%nat
  /\ (uniqueBreeds stats = 0%nat <-> analyzed stats = 0%nat)
  /\ (avgConfidence stats = AvgNumber 0%float <-> analyzed stats = 0%nat).
Proof.
  intros stats. unfold stats, getOverallStats. simpl.
  set (an := List.filter Image.has_result imgs).
  pose proof (results_of_analyzed_length imgs) as Hrs. fold an in Hrs.
  split; [apply filter_length_le|].
  set (breeds := map Result.breed (results_of an)).
  assert (Hb : length breeds = length an) by (unfold breeds; rewrite length_map; exact Hrs).
  split; [|split].
  - pose proof (proj2 (new_Set_grows breeds [])) as H. fold (new_Set breeds) in H.
    simpl in H. lia.
  - destruct breeds as [|b bs] eqn:E.
    + simpl in Hb. rewrite <- Hb. split; reflexivity.
    + pose proof (new_Set_nonempty b bs). simpl in Hb. lia.
  - destruct (length an); simpl; split; intros H; try reflexivity; discriminate.
Qed.

Lemma newImages_have_no_result now files : forall s,
  List.filter Image.has_result (map_index (new_image now) s files) = [].
Proof. induction files as [|f fs IH]; intros s; simpl; [reflexivity | apply IH]. Qed.

Lemma filter_result_after_remove imageId (l : list Image.t) :
  (forall img, In img l -> Image.id img = imageId -> Image.result img = None) ->
  List.filter Image.has_result
    (List.filter (fun img => negb (Image.id img =? imageId)) l)
  = List.filter Image.has_result l.
Proof.
  induction l as [|img l IH]; intros H; simpl; [reflexivity|].
  assert (IH' := IH (fun x Hx => H x (or_intror Hx))).
  destruct (Z.eqb_spec (Image.id img) imageId) as [E|_]; simpl.
  - unfold Image.has_result at 2. rewrite (H img (or_introl eq_refl) E). exact IH'.
  - rewrite IH'. reflexivity.
Qed.

(** X14: ingestion changes [total] only: after [handleFiles] the count of
    analyzed items, the number of breeds and the average are what they
    were, and [total] has grown by the number of files.  Removing an id
    whose images have no result likewise leaves those three as they were. *)
Theorem getOverallStats_after_ingestion
    (st : State) (now : nat -> Z) (files : list File) :
  let before := getOverallStats (images st) in
  let after := getOverallStats (images (handleFiles now files st)) in
  total after = (total before + length files)%nat
  /\ analyzed after = analyzed before
  /\ uniqueBreeds after = uniqueBreeds before
  /\ avgConfidence after = avgConfidence before
  /\ forall imageId,
       (forall img, In img (images st) ->
                    Image.id img = imageId -> Image.result img = None) ->
       let removed := getOverallStats (images (handleRemoveImage imageId st)) in
       analyzed removed = analyzed before
       /\ uniqueBreeds removed = uniqueBreeds before
       /\ avgConfidence removed = avgConfidence before.
Proof.
  intros before after.
  assert (Hf : List.filter Image.has_result (images (handleFiles now files st))
               = List.filter Image.has_result (images st)).
  { simpl. rewrite List.filter_app. unfold newImages.
    rewrite newImages_have_no_result. apply app_nil_r. }
  unfold after, before, getOverallStats. rewrite Hf.
  split; [simpl; rewrite length_app; unfold newImages; rewrite map_index_length;
          reflexivity|].
  split; [reflexivity|]. split; [reflexivity|]. split; [reflexivity|].
  intros imageId Hno.
  change (images (handleRemoveImage imageId st))
    with (List.filter (fun img => negb (Image.id img =? imageId)) (images st)).
  rewrite (filter_result_after_remove imageId (images st) Hno).
  repeat split; reflexivity.
Qed.

Lemma average_of_one_checked :
  forallb average_of_one_is_itself (map Z.of_nat (seq 0 1001)) = true.
Proof. vm_compute. reflexivity. Qed.

(** X15: with exactly one analyzed item, whose confidence is a one-decimal
    string between 0.0 and 100.0, [avgConfidence] is that very string: the
    trip through [parseFloat], the sum from [0], the division by 1 and
    [toFixed(1)] gives the decimal back. *)
Theorem average_of_one_item_is_its_confidence
    (imgs : list Image.t) (img : Image.t) (r : Result.t) (n : Z) :
  List.filter Image.has_result imgs = [img] ->
  Image.result img = Some r ->
  Result.confidence r = Js.Fixed false n 1 ->
  0 <= n <= 1000 ->
  avgConfidence (getOverallStats imgs) = AvgString (Js.Fixed false n 1).
Proof.
  intros Hf Hr Hc Hn. unfold getOverallStats. rewrite Hf. simpl. rewrite Hr. simpl.
  rewrite Hc. fold (average_of_one n). f_equal.
  assert (Hin : In n (map Z.of_nat (seq 0 1001))).
  { apply in_map_iff. exists (Z.to_nat n). split; [lia|]. apply in_seq. lia. }
  pose proof (proj1 (forallb_forall _ _) average_of_one_checked n Hin) as Hchk.
  unfold average_of_one_is_itself in Hchk.
  destruct (average_of_one n) as [neg m f|x]; [|discriminate].
  destruct neg; [discriminate|].
  destruct f as [|[| |]|]; try discriminate.
  apply Z.eqb_eq in Hchk. subst m. reflexivity.
Qed.

Lemma average_of_one_item_is_its_confidence_witness :
  avgConfidence (getOverallStats (images (first_settles_with (responds "Gir" 90.0))))
  = AvgString (Js.Fixed false 900 1).
Proof.
  refine (average_of_one_item_is_its_confidence
            (images (first_settles_with (responds "Gir" 90.0))) _ _ 900
            eq_refl eq_refl eq_refl _).
  lia.
Defined.

(** ** What the card says after a failure *)

Lemma server_message_nonempty text status :
  Js.str_or text ("Server error: " ++ Js.string_of_Z status) <> ""%string.
Proof. apply str_or_nonempty. discriminate. Qed.

(** X16: the error an item gets when its call settles, by the way the call
    ended: the body text of a response that is not ok, or
    ["Server error: <status>"] when the body is empty; the message of a
    rejected fetch or of a body that does not parse, or ["Analysis failed"]
    when that message is empty; and none when the call succeeded, the
    item's error staying as it was. *)
Theorem error_shown_by_outcome
    (st : State) (imageId : Z) (out : FetchOutcome) (ms : float) :
  let st' := snd (handleAnalyzeImage_settled imageId (analyzeImage imageId out ms) st) in
  let shown :=
    match out with
    | FetchRejects err => Some (Js.str_or (Js.message err) "Analysis failed")
    | FetchResponds false status text _ =>
        Some (Js.str_or text ("Server error: " ++ Js.string_of_Z status))
    | FetchResponds true _ _ (inr err) =>
        Some (Js.str_or (Js.message err) "Analysis failed")
    | FetchResponds true _ _ (inl _) => None
    end in
  Forall2 (fun a b =>
             if Image.id a =? imageId then
               match shown with
               | Some msg => Image.error b = Some msg /\ Image.analyzing b = false
                             /\ msg <> ""%string
               | None => Image.error b = Image.error a /\ Image.result b <> None
               end
             else b = a)
          (images st) (images st').
Proof.
  intros st' shown.
  assert (H : forall f,
             (forall a, match shown with
                        | Some msg => Image.error (f a) = Some msg
                                      /\ Image.analyzing (f a) = false
                                      /\ msg <> ""%string
                        | None => Image.error (f a) = Image.error a
                                  /\ Image.result (f a) <> None
                        end) ->
             Forall2 (fun a b =>
                        if Image.id a =? imageId then
                          match shown with
                          | Some msg => Image.error b = Some msg
                                        /\ Image.analyzing b = false
                                        /\ msg <> ""%string
                          | None => Image.error b = Image.error a
                                    /\ Image.result b <> None
                          end
                        else b = a)
                     (images st) (map_id imageId f (images st))).
  { intros f Hf. unfold map_id.
    induction (images st) as [|a l IH]; simpl; constructor; [|exact IH].
    destruct (Image.id a =? imageId); [apply Hf | reflexivity]. }
  unfold st', shown, analyzeImage.
  destruct out as [err|ok status text json].
  - simpl. apply H. intros a. simpl.
    repeat split. apply str_or_nonempty. discriminate.
  - destruct ok; simpl.
    + destruct json as [data|err]; simpl; apply H; intros a; simpl.
      * split; [reflexivity | discriminate].
      * repeat split. apply str_or_nonempty. discriminate.
    + apply H. intros a. simpl.
      rewrite (str_or_left _ "Analysis failed" (server_message_nonempty text status)).
      repeat split. apply server_message_nonempty.
Qed.

(** ** The analyzing mark *)

Lemma In_remove_nth {A : Type} (k : nat) (l : list A) (x y : A) :
  nth_error l k = Some y -> In x l -> x = y \/ In x (remove_nth k l).
Proof.
  revert k. induction l as [|z l IH]; intros [|k] Hk Hin; simpl in *; try discriminate.
  - injection Hk as ->. destruct Hin as [->|Hin]; auto.
  - destruct Hin as [->|Hin]; [right; left; reflexivity|].
    destruct (IH k Hk Hin); auto.
Qed.

Lemma nth_error_map_id (ps : list Pending) k p :
  nth_error ps k = Some p -> nth_error (map p_imageId ps) k = Some (p_imageId p).
Proof. intros H. rewrite nth_error_map, H. reflexivity. Qed.

Lemma remove_nth_map {A B : Type} (f : A -> B) (l : list A) : forall k,
  remove_nth k (map f l) = map f (remove_nth k l).
Proof.
  induction l as [|x l IH]; intros [|k]; simpl; try reflexivity.
  rewrite IH. reflexivity.
Qed.

Lemma spinners_weaken (st st' : State) (l : list Image.t) :
  (forall i, under_way i st -> under_way i st') ->
  Forall (fun img => Image.analyzing img = true -> under_way (Image.id img) st) l ->
  Forall (fun img => Image.analyzing img = true -> under_way (Image.id img) st') l.
Proof.
  intros Hmono. apply List.Forall_impl. intros img H Han. apply Hmono, H, Han.
Qed.

Lemma handleAnalyzeImage_backed imgs imageId c st :
  spinners_are_backed st -> spinners_are_backed (snd (handleAnalyzeImage imgs imageId c st)).
Proof.
  intros Inv. unfold handleAnalyzeImage. destruct (find _ imgs) as [image|]; [|exact Inv].
  unfold spinners_are_backed. simpl.
  set (st' := fetch_predict _ _ _ _).
  assert (Hmono : forall i, under_way i st -> under_way i st').
  { intros i [H|H]; [left|right; exact H]. simpl. rewrite map_app.
    apply in_or_app. left. exact H. }
  apply map_id_Forall; [|exact (spinners_weaken st st' _ Hmono Inv)].
  intros img _ Hid _. left. simpl. rewrite map_app. apply in_or_app. right.
  left. symmetry. exact Hid.
Qed.

Lemma analyzeAll_loop_backed imgs rest : forall st,
  spinners_are_backed st -> spinners_are_backed (analyzeAll_loop imgs rest st).
Proof.
  induction rest as [|image rest IH]; intros st Inv; simpl; [exact Inv|].
  pose proof (handleAnalyzeImage_backed imgs (Image.id image)
                (FromAnalyzeAll imgs rest) st Inv) as H.
  destruct (handleAnalyzeImage imgs (Image.id image) (FromAnalyzeAll imgs rest) st)
    as [[|] st']; simpl in H; [apply IH|]; exact H.
Qed.

Lemma resume_backed k p r st :
  nth_error (pending st) k = Some p ->
  spinners_are_backed st ->
  spinners_are_backed (resume p r (set_pending (remove_nth k (pending st)) st)).
Proof.
  intros Hk Inv. unfold resume. set (st0 := add_log _ _).
  assert (Hcases : forall i, under_way i st -> i = p_imageId p \/ under_way i st0).
  { intros i [H|H]; [|right; right; exact H].
    destruct (In_remove_nth k _ i _ (nth_error_map_id _ _ _ Hk) H) as [->|H'];
      [left; reflexivity|].
    right. left. simpl. rewrite <- remove_nth_map. exact H'. }
  assert (H1 : spinners_are_backed
                 (snd (handleAnalyzeImage_settled (p_imageId p) r st0))).
  { unfold spinners_are_backed. destruct r as [res|err]; simpl.
    - set (st1 := setTimeout _ _).
      unfold map_id. apply List.Forall_forall. intros b Hb.
      apply in_map_iff in Hb. destruct Hb as (a & <- & Ha).
      pose proof (proj1 (List.Forall_forall _ _) Inv a Ha) as Hback.
      assert (Hgoal : Image.analyzing a = true -> under_way (Image.id a) st1).
      { intros Han. destruct (Hcases _ (Hback Han)) as [E|[H|H]].
        - right. simpl. apply in_or_app. right. left. symmetry. exact E.
        - left. exact H.
        - right. simpl. apply in_or_app. left. exact H. }
      destruct (Image.id a =? p_imageId p); exact Hgoal.
    - unfold map_id. apply List.Forall_forall. intros b Hb.
      apply in_map_iff in Hb. destruct Hb as (a & <- & Ha).
      pose proof (proj1 (List.Forall_forall _ _) Inv a Ha) as Hback.
      destruct (Z.eqb_spec (Image.id a) (p_imageId p)) as [E|N]; simpl.
      + discriminate.
      + intros Han. destruct (Hcases _ (Hback Han)) as [E|H]; [contradiction|].
        exact H. }
  pose proof (settled_keeps_sweeps (p_imageId p) r st0) as (Hc & _).
  destruct (handleAnalyzeImage_settled (p_imageId p) r st0) as [c st1].
  simpl in H1, Hc. subst c.
  destruct (p_caller p); [exact H1|].
  apply analyzeAll_loop_backed. exact H1.
Qed.

Lemma step_backed ev st : spinners_are_backed st -> spinners_are_backed (step ev st).
Proof.
  intros Inv. destruct ev as [now files|k url|imageId| |imageId| |k out ms|k|imageId]; simpl.
  - destruct (0 <? length files)%nat; [|exact Inv].
    unfold spinners_are_backed. simpl. apply Forall_app. split; [exact Inv|].
    apply map_index_Forall. intros i f. simpl. discriminate.
  - destruct (nth_error (readers st) k); [|exact Inv].
    unfold spinners_are_backed. simpl.
    apply (map_id_Forall (fun img => Image.analyzing img = true ->
                                     under_way (Image.id img) st)); [|exact Inv].
    intros img H _. exact H.
  - destruct (analyze_button_shown imageId (images st)); [|exact Inv].
    apply handleAnalyzeImage_backed. exact Inv.
  - destruct (analyzeAll_button_enabled st); [|exact Inv].
    apply analyzeAll_loop_backed. exact Inv.
  - destruct (existsb _ (images st)); [|exact Inv].
    unfold spinners_are_backed. simpl.
    apply (Forall_filter_keeps (fun img => Image.analyzing img = true ->
                                           under_way (Image.id img) st)).
    exact Inv.
  - destruct (0 <? length (images st))%nat; [|exact Inv]. constructor.
  - destruct (nth_error (pending st) k) as [p|] eqn:Hk; [|exact Inv].
    apply resume_backed; assumption.
  - destruct (nth_error (timeouts st) k) as [i|] eqn:Hk; [|exact Inv].
    unfold spinners_are_backed. simpl. unfold map_id.
    apply List.Forall_forall. intros b Hb.
    apply in_map_iff in Hb. destruct Hb as (a & <- & Ha).
    pose proof (proj1 (List.Forall_forall _ _) Inv a Ha) as Hback.
    destruct (Z.eqb_spec (Image.id a) i) as [E|N]; simpl; [discriminate|].
    intros Han. destruct (Hback Han) as [H|H]; [left; exact H|].
    right. simpl. destruct (In_remove_nth k _ _ _ Hk H) as [E|H']; [contradiction|].
    exact H'.
  - destruct (interval_tick imageId (images st)) as [imgs|] eqn:Ht; [|exact Inv].
    unfold spinners_are_backed. simpl.
    apply (interval_tick_Forall
             (fun img => Image.analyzing img = true -> under_way (Image.id img) st)
             imageId (fun img H => H) (images st) imgs Inv Ht).
Qed.

(** X17: in every session an image that is marked analyzing has a parked
    call or a settle timer for its id: whatever is clicked, removed or
    settled, the mark is never left on with nothing under way that will
    take it off. *)
Theorem analyzing_mark_is_backed (evs : list Event) :
  let st := run evs initial in
  Forall (fun img => Image.analyzing img = true ->
                     In (Image.id img) (map p_imageId (pending st))
                     \/ In (Image.id img) (timeouts st))
         (images st).
Proof.
  assert (H : forall st, spinners_are_backed st -> spinners_are_backed (run evs st)).
  { induction evs as [|ev evs IH]; intros st Hst; [exact Hst|].
    change (run (ev :: evs) st) with (run evs (step ev st)).
    apply IH. apply step_backed. exact Hst. }
  apply (H initial). constructor.
Qed.
